(** * ScriptlyX: Latin/Cyrillic transliteration, converter registry and
      script detection

    A shallow embedding of
      - [core/mappings/latin-cyrillic.ts], the generic, Russian-style scheme,
      - [core/mappings/uzbek.ts], the Uzbek alphabet,
      - the conversion engine, with its registry of converters,
      - the script detection utility.

    JavaScript strings are sequences of UTF-16 code units, so a string is a
    [list N] here; [Map] objects keep insertion order and are association
    lists; [while] loops carry fuel; [throw] is an explicit outcome. *)

From Stdlib Require Import String Ascii.
From Stdlib Require Import List NArith ZArith Arith Bool Lia Floats Permutation.
Import ListNotations.

(* ================================================================== *)
(** * JavaScript strings *)
(* ================================================================== *)

Definition jsstring : Type := list N.

Fixpoint streq (a b : jsstring) : bool :=
  match a, b with
  | [], [] => true
  | x :: a', y :: b' => N.eqb x y && streq a' b'
  | _, _ => false
  end.

(** ** Literals

    Literals are written as UTF-8 text and read into code units: one, two
    and three byte sequences give one unit, four byte sequences a surrogate
    pair. *)

Definition units_of_code_point (cp : N) : jsstring :=
  if (cp <? 65536)%N then [cp]
  else [(55296 + N.shiftr (cp - 65536) 10)%N; (56320 + N.land (cp - 65536) 1023)%N].

Fixpoint utf8 (s : string) (pending : nat) (acc : N) : jsstring :=
  match s with
  | EmptyString => []
  | String a s' =>
      let b := N_of_ascii a in
      match pending with
      | O =>
          if (b <? 128)%N then b :: utf8 s' 0 0%N
          else if (b <? 224)%N then utf8 s' 1 (N.land b 31)
          else if (b <? 240)%N then utf8 s' 2 (N.land b 15)
          else utf8 s' 3 (N.land b 7)
      | S O => units_of_code_point (N.lor (N.shiftl acc 6) (N.land b 63)) ++ utf8 s' 0 0%N
      | S p => utf8 s' p (N.lor (N.shiftl acc 6) (N.land b 63))
      end
  end.

Definition js (s : string) : jsstring := utf8 s 0 0%N.

(** The double quote, U+0022, which the generic table uses as a key. *)
Definition dquote : jsstring := [34%N].

(** ** [String.prototype.substring], [s[i]], [slice(1)] *)

(** [substring(start, end)]: both indices are clamped to the length and
    swapped when [start > end]. *)
Definition substring (s : jsstring) (start finish : nat) : jsstring :=
  let a := Nat.min start (length s) in
  let b := Nat.min finish (length s) in
  firstn (Nat.max a b - Nat.min a b) (skipn (Nat.min a b) s).

(** [s[i]] is a one-unit string, or [undefined]. *)
Definition index (s : jsstring) (i : nat) : option jsstring :=
  match nth_error s i with
  | Some c => Some [c]
  | None => None
  end.

Definition slice1 (s : jsstring) : jsstring := skipn 1 s.

(** What [+=] appends for [undefined]. *)
Definition undefined_text : jsstring := js "undefined".

(** ** Case conversion

    [toLowerCase] and [toUpperCase] are the engine's, not the repository's:
    the program is embedded over any pair of functions on strings that map
    the empty string to itself, as the built-in ones do. *)

Class CaseConversion : Type := {
  toLowerCase : jsstring -> jsstring;
  toUpperCase : jsstring -> jsstring;
  toLowerCase_empty : toLowerCase [] = [];
  toUpperCase_empty : toUpperCase [] = []
}.

(** The built-in conversions on Basic Latin and on the Cyrillic block
    U+0400..U+04FF, unit by unit; other code units are left alone. *)
Module Unicode.

Definition between (lo hi c : N) : bool := (lo <=? c)%N && (c <=? hi)%N.

Definition lowerUnit (c : N) : N :=
  if between 65 90 c then (c + 32)%N
  else if between 1024 1039 c then (c + 80)%N
  else if between 1040 1071 c then (c + 32)%N
  else if (between 1120 1153 c || between 1162 1215 c || between 1232 1279 c)
          && N.even c then (c + 1)%N
  else if (c =? 1216)%N then 1231%N
  else if between 1217 1230 c && N.odd c then (c + 1)%N
  else c.

Definition upperUnit (c : N) : N :=
  if between 97 122 c then (c - 32)%N
  else if between 1104 1119 c then (c - 80)%N
  else if between 1072 1103 c then (c - 32)%N
  else if (between 1120 1153 c || between 1162 1215 c || between 1232 1279 c)
          && N.odd c then (c - 1)%N
  else if (c =? 1231)%N then 1216%N
  else if between 1217 1230 c && N.even c then (c - 1)%N
  else c.

#[export] Instance caseConversion : CaseConversion := {
  toLowerCase := List.map lowerUnit;
  toUpperCase := List.map upperUnit;
  toLowerCase_empty := eq_refl;
  toUpperCase_empty := eq_refl
}.

End Unicode.

(* ================================================================== *)
(** * [Map]: insertion-ordered association lists *)
(* ================================================================== *)

Section JSMap.
Variable V : Type.

Definition Map : Type := list (jsstring * V).

Fixpoint get (k : jsstring) (m : Map) : option V :=
  match m with
  | [] => None
  | (k', v) :: m' => if streq k k' then Some v else get k m'
  end.

Definition has (k : jsstring) (m : Map) : bool :=
  match get k m with Some _ => true | None => false end.

(** [set] overwrites the value of a key that is present, in place, and
    appends a key that is not. *)
Fixpoint set (k : jsstring) (v : V) (m : Map) : Map :=
  match m with
  | [] => [(k, v)]
  | (k', v') :: m' => if streq k k' then (k', v) :: m' else (k', v') :: set k v m'
  end.

Definition keys (m : Map) : list jsstring := List.map fst m.
Definition values (m : Map) : list V := List.map snd m.
End JSMap.

Arguments get {V} k m.
Arguments has {V} k m.
Arguments set {V} k v m.
Arguments keys {V} m.
Arguments values {V} m.

(* ================================================================== *)
(** * Mapping tables *)
(* ================================================================== *)

Record CharacterMapping : Type := { latin : jsstring; cyrillic : jsstring }.

Definition entry (l c : string) : CharacterMapping :=
  {| latin := js l; cyrillic := js c |}.

(** Both files build their indexes the same way from the main table: one
    unconditional [set] per entry and direction. *)
Definition setMain (acc : Map jsstring * Map jsstring) (e : CharacterMapping)
  : Map jsstring * Map jsstring :=
  (set (latin e) (cyrillic e) (fst acc), set (cyrillic e) (latin e) (snd acc)).

(** [Array.from(map.keys()).sort((a, b) => b.length - a.length)]: a stable
    sort by descending length. *)
Fixpoint insertByLength (k : jsstring) (sorted : list jsstring) : list jsstring :=
  match sorted with
  | [] => [k]
  | k' :: rest =>
      if length k' <=? length k then k :: sorted else k' :: insertByLength k rest
  end.

Definition getSortedKeys (m : Map jsstring) : list jsstring :=
  fold_right insertByLength [] (keys m).

(** The loop over a main table, from two empty maps. *)
Definition mainLoop (table : list CharacterMapping) : Map jsstring * Map jsstring :=
  fold_left setMain table ([], []).

(* ================================================================== *)
(** * The transducer *)
(* ================================================================== *)

Inductive jsError : Type :=
| TypeError
| Error (message : jsstring).

Inductive outcome : Type :=
| Returns (s : jsstring)
| Throws (e : jsError)
| OutOfFuel.

Section Transducer.
Context `{CaseConversion}.

Definition isUpperCase (char : jsstring) : bool :=
  negb (streq char (toLowerCase char)) && streq char (toUpperCase char).

(** [source[0]] and [target[0]] are read only behind the length test. *)
Definition matchCase (source target : jsstring) : jsstring :=
  if (length source =? 0) || (length target =? 0) then target
  else if streq source (toUpperCase source) && negb (streq source (toLowerCase source))
  then toUpperCase target
  else match index source 0, index target 0 with
       | Some s0, Some t0 =>
           if isUpperCase s0 then toUpperCase t0 ++ slice1 target else target
       | _, _ => target
       end.

(** The [for (const key of sortedKeys)] loop with its [break]: the first
    key whose length-[key.length] chunk at [i] lower-cases to it, together
    with that chunk. *)
Fixpoint forKeys (sortedKeys : list jsstring) (text : jsstring) (i : nat)
  : option (jsstring * jsstring) :=
  match sortedKeys with
  | [] => None
  | key :: rest =>
      let chunk := substring text i (i + length key) in
      let chunkLower := toLowerCase chunk in
      if streq chunkLower key then Some (key, chunk) else forKeys rest text i
  end.

Inductive iteration : Type :=
| Next (i : nat) (result : jsstring)
| Raise (e : jsError).

(** One iteration of the [while] loop.  The non-null assertion on
    [map.get(key)] is erased at run time: with [undefined] for the
    replacement, [matchCase] returns it when the chunk is empty and
    dereferences it otherwise. *)
Definition loopBody (sortedKeys : list jsstring) (m : Map jsstring)
           (text : jsstring) (i : nat) (result : jsstring) : iteration :=
  match forKeys sortedKeys text i with
  | Some (key, chunk) =>
      match get key m with
      | Some replacement =>
          Next (i + length key) (result ++ matchCase chunk replacement)
      | None =>
          if length chunk =? 0
          then Next (i + length key) (result ++ undefined_text)
          else Raise TypeError
      end
  | None =>
      match index text i with
      | Some c => Next (i + 1) (result ++ c)
      | None => Next (i + 1) (result ++ undefined_text)
      end
  end.

Fixpoint whileLoop (fuel : nat) (sortedKeys : list jsstring) (m : Map jsstring)
         (text : jsstring) (i : nat) (result : jsstring) : outcome :=
  if i <? length text then
    match fuel with
    | O => OutOfFuel
    | S fuel' =>
        match loopBody sortedKeys m text i result with
        | Next i' result' => whileLoop fuel' sortedKeys m text i' result'
        | Raise e => Throws e
        end
    end
  else Returns result.

(** The four exported functions are the same loop over their own key list
    and index; [transliterate] is that loop from [i = 0], [result = ''].
    One unit of fuel per code unit of the text. *)
Definition transliterate (sortedKeys : list jsstring) (m : Map jsstring)
           (text : jsstring) : outcome :=
  whileLoop (length text) sortedKeys m text 0 [].

End Transducer.

(* ================================================================== *)
(** * [latin-cyrillic.ts]: the generic scheme *)
(* ================================================================== *)

Module LatinCyrillic.

Definition LATIN_CYRILLIC_MAP : list CharacterMapping :=
  [ (* Trigraphs (must come first) *)
    entry "shch" "щ";
    (* Digraphs *)
    entry "yo" "ё"; entry "zh" "ж"; entry "kh" "х"; entry "ts" "ц";
    entry "ch" "ч"; entry "sh" "ш"; entry "yu" "ю"; entry "ya" "я";
    entry "ye" "э";
    (* Special characters *)
    entry "y'" "ы";
    {| latin := dquote; cyrillic := js "ъ" |};
    entry "'" "ь";
    (* Single characters *)
    entry "a" "а"; entry "b" "б"; entry "v" "в"; entry "g" "г";
    entry "d" "д"; entry "e" "е"; entry "z" "з"; entry "i" "и";
    entry "y" "й"; entry "k" "к"; entry "l" "л"; entry "m" "м";
    entry "n" "н"; entry "o" "о"; entry "p" "п"; entry "r" "р";
    entry "s" "с"; entry "t" "т"; entry "u" "у"; entry "f" "ф";
    entry "h" "х"; entry "c" "ц"; entry "w" "в"; entry "x" "кс";
    entry "q" "к" ].

Definition buildLookupMaps : Map jsstring * Map jsstring :=
  mainLoop LATIN_CYRILLIC_MAP.

Definition latinToCyrillic : Map jsstring := fst buildLookupMaps.
Definition cyrillicToLatin : Map jsstring := snd buildLookupMaps.

Definition sortedLatinKeys : list jsstring := getSortedKeys latinToCyrillic.
Definition sortedCyrillicKeys : list jsstring := getSortedKeys cyrillicToLatin.

Section Convert.
Context `{CaseConversion}.

Definition latinToCyrillicConvert (text : jsstring) : outcome :=
  transliterate sortedLatinKeys latinToCyrillic text.

Definition cyrillicToLatinConvert (text : jsstring) : outcome :=
  transliterate sortedCyrillicKeys cyrillicToLatin text.

End Convert.

End LatinCyrillic.

(* ================================================================== *)
(** * [uzbek.ts]: the Uzbek alphabet *)
(* ================================================================== *)

Module Uzbek.

Definition UZBEK_LATIN_CYRILLIC_MAP : list CharacterMapping :=
  [ (* Digraphs and special combinations (must come first) *)
    entry "ch" "ч"; entry "sh" "ш"; entry "g'" "ғ"; entry "o'" "ў";
    entry "ng" "нг"; entry "'" "ъ";
    (* Single letters *)
    entry "a" "а"; entry "b" "б"; entry "d" "д"; entry "e" "е";
    entry "f" "ф"; entry "g" "г"; entry "h" "ҳ"; entry "i" "и";
    entry "j" "ж"; entry "k" "к"; entry "l" "л"; entry "m" "м";
    entry "n" "н"; entry "o" "о"; entry "p" "п"; entry "q" "қ";
    entry "r" "р"; entry "s" "с"; entry "t" "т"; entry "u" "у";
    entry "v" "в"; entry "x" "х"; entry "y" "й"; entry "z" "з" ].

Definition UZBEK_CYRILLIC_TO_LATIN_EXTRAS : list CharacterMapping :=
  [ entry "ye" "е"; entry "yo" "ё"; entry "yu" "ю"; entry "ya" "я";
    entry "ts" "ц"; entry "shch" "щ";
    {| latin := []; cyrillic := js "ь" |};
    {| latin := []; cyrillic := js "ъ" |} ].

(** The second loop: an extra is set only when its key is absent. *)
Definition setExtra (cyrillicToLatin : Map jsstring) (e : CharacterMapping)
  : Map jsstring :=
  if negb (has (cyrillic e) cyrillicToLatin)
  then set (cyrillic e) (latin e) cyrillicToLatin
  else cyrillicToLatin.

Definition buildLookupMaps : Map jsstring * Map jsstring :=
  let main := mainLoop UZBEK_LATIN_CYRILLIC_MAP in
  (fst main, fold_left setExtra UZBEK_CYRILLIC_TO_LATIN_EXTRAS (snd main)).

Definition latinToCyrillic : Map jsstring := fst buildLookupMaps.
Definition cyrillicToLatin : Map jsstring := snd buildLookupMaps.

Definition sortedLatinKeys : list jsstring := getSortedKeys latinToCyrillic.
Definition sortedCyrillicKeys : list jsstring := getSortedKeys cyrillicToLatin.

Section Convert.
Context `{CaseConversion}.

Definition uzbekLatinToCyrillic (text : jsstring) : outcome :=
  transliterate sortedLatinKeys latinToCyrillic text.

Definition uzbekCyrillicToLatin (text : jsstring) : outcome :=
  transliterate sortedCyrillicKeys cyrillicToLatin text.

End Convert.

End Uzbek.

(* ================================================================== *)
(** * The conversion engine: the registry of converters *)
(* ================================================================== *)

Module Converter.
Record t : Type := {
  id : jsstring;
  name : jsstring;
  convert : jsstring -> outcome
}.
End Converter.

(** The module-level [converters] map is threaded through as a value. *)
Definition registerConverter (converter : Converter.t) (converters : Map Converter.t)
  : Map Converter.t :=
  set (Converter.id converter) converter converters.

Definition getConverter (id : jsstring) (converters : Map Converter.t)
  : option Converter.t :=
  get id converters.

Definition getAllConverters (converters : Map Converter.t) : list Converter.t :=
  values converters.

Definition unknownConverter (type : jsstring) : jsError :=
  Error (js "Unknown converter: " ++ type).

Definition convert (converters : Map Converter.t) (text type : jsstring) : outcome :=
  match get type converters with
  | None => Throws (unknownConverter type)
  | Some converter => Converter.convert converter text
  end.

Definition isConversionType (converters : Map Converter.t) (action : jsstring) : bool :=
  has action converters.

Section BuiltIn.
Context `{CaseConversion}.

Definition russianLatinToCyrillic : Converter.t :=
  {| Converter.id := js "latin-to-cyrillic";
     Converter.name := js "Latin → Cyrillic (Russian)";
     Converter.convert := LatinCyrillic.latinToCyrillicConvert |}.

Definition russianCyrillicToLatin : Converter.t :=
  {| Converter.id := js "cyrillic-to-latin";
     Converter.name := js "Cyrillic → Latin (Russian)";
     Converter.convert := LatinCyrillic.cyrillicToLatinConvert |}.

Definition uzbekLatnToCyrl : Converter.t :=
  {| Converter.id := js "uz-latn-to-uz-cyrl";
     Converter.name := js "Uzbek Latin → Cyrillic";
     Converter.convert := Uzbek.uzbekLatinToCyrillic |}.

Definition uzbekCyrlToLatn : Converter.t :=
  {| Converter.id := js "uz-cyrl-to-uz-latn";
     Converter.name := js "Uzbek Cyrillic → Latin";
     Converter.convert := Uzbek.uzbekCyrillicToLatin |}.

(** The four [registerConverter] calls the module runs when it is loaded,
    in their order. *)
Definition builtInCalls : list Converter.t :=
  [russianLatinToCyrillic; russianCyrillicToLatin; uzbekLatnToCyrl; uzbekCyrlToLatn].

End BuiltIn.

(** The registry after a sequence of [registerConverter] calls. *)
Definition registered (calls : list Converter.t) : Map Converter.t :=
  fold_left (fun converters c => registerConverter c converters) calls [].

(* ================================================================== *)
(** * The script detection utility *)
(* ================================================================== *)

Module ScriptDetector.

(** [/[\u0400-\u04FF]/.test(s)] and [/[A-Za-z]/.test(s)]: some code unit of
    [s] lies in the class. *)
Definition cyrillicUnit (c : N) : bool := (1024 <=? c)%N && (c <=? 1279)%N.
Definition latinUnit (c : N) : bool :=
  ((65 <=? c)%N && (c <=? 90)%N) || ((97 <=? c)%N && (c <=? 122)%N).

Definition CYRILLIC_RANGE_test (s : jsstring) : bool := existsb cyrillicUnit s.
Definition LATIN_RANGE_test (s : jsstring) : bool := existsb latinUnit s.

Inductive ScriptType : Type := latinScript | cyrillicScript | mixed | unknown.

Record ScriptAnalysis : Type := {
  type : ScriptType;
  latinCount : N;
  cyrillicCount : N;
  totalLetters : N;
  latinPercentage : float;
  cyrillicPercentage : float
}.

(** [for (const char of text)] walks code points: a high surrogate followed
    by a low one is one [char] of two units, any other unit is a [char] of
    its own. *)
Definition highSurrogate (c : N) : bool := (55296 <=? c)%N && (c <=? 56319)%N.
Definition lowSurrogate (c : N) : bool := (56320 <=? c)%N && (c <=? 57343)%N.

Fixpoint chars (text : jsstring) : list jsstring :=
  match text with
  | [] => []
  | c :: rest =>
      match rest with
      | d :: rest' =>
          if highSurrogate c && lowSurrogate d
          then [c; d] :: chars rest'
          else [c] :: chars rest
      | [] => [[c]]
      end
  end.

(** The counters are integers below 2^53, the bound on a string's length,
    where a JavaScript number is exact; they become binary64 numbers for
    the division. *)
Definition number (n : N) : float := PrimFloat.of_uint63 (Uint63.of_Z (Z.of_N n)).

Definition count (counters : N * N) (char : jsstring) : N * N :=
  let '(latinCount, cyrillicCount) := counters in
  if LATIN_RANGE_test char then ((latinCount + 1)%N, cyrillicCount)
  else if CYRILLIC_RANGE_test char then (latinCount, (cyrillicCount + 1)%N)
  else (latinCount, cyrillicCount).

Definition analyzeScript (text : jsstring) : ScriptAnalysis :=
  let '(latinCount, cyrillicCount) := fold_left count (chars text) (0%N, 0%N) in
  let totalLetters := (latinCount + cyrillicCount)%N in
  if (totalLetters =? 0)%N then
    {| type := unknown; latinCount := 0; cyrillicCount := 0; totalLetters := 0;
       latinPercentage := 0%float; cyrillicPercentage := 0%float |}
  else
    let latinPercentage := (number latinCount / number totalLetters * 100)%float in
    let cyrillicPercentage := (number cyrillicCount / number totalLetters * 100)%float in
    let type :=
      if PrimFloat.leb 90 latinPercentage then latinScript
      else if PrimFloat.leb 90 cyrillicPercentage then cyrillicScript
      else if (0 <? totalLetters)%N then mixed
      else unknown in
    {| type := type; latinCount := latinCount; cyrillicCount := cyrillicCount;
       totalLetters := totalLetters; latinPercentage := latinPercentage;
       cyrillicPercentage := cyrillicPercentage |}.

Definition suggestConversion (text : jsstring) : option jsstring :=
  match type (analyzeScript text) with
  | latinScript => Some (js "latin-to-cyrillic")
  | cyrillicScript => Some (js "cyrillic-to-latin")
  | _ => None
  end.

End ScriptDetector.

(* ================================================================== *)
(** * The rest of the conversion engine and of the script detector *)
(* ================================================================== *)

(** [s.startsWith(prefix)] and [s.includes(needle)]. *)
Definition startsWith (prefix s : jsstring) : bool :=
  streq (firstn (length prefix) s) prefix.

Fixpoint includes (needle s : jsstring) : bool :=
  startsWith needle s ||
  match s with
  | [] => false
  | _ :: s' => includes needle s'
  end.

Definition isTranslationType (action : jsstring) : bool :=
  startsWith (js "translate-") action.

(** The regular expression [/^translate-(.+)-to-(.+)$/], by hand.  A dot
    matches any code unit but the four line terminators.  After the literal
    prefix the first group is greedy: the matcher tries the longest first
    group first and gives units back one at a time, until what follows is
    "-to-" and then at least one unit up to the end of the string, every
    unit a dot's. *)
Definition lineTerminator (c : N) : bool :=
  (c =? 10)%N || (c =? 13)%N || (c =? 8232)%N || (c =? 8233)%N.

Definition dot (c : N) : bool := negb (lineTerminator c).

Definition splitAt (k : nat) (rest : jsstring) : option (jsstring * jsstring) :=
  let group1 := firstn k rest in
  let tail := skipn k rest in
  let group2 := skipn 4 tail in
  if (0 <? length group1) && forallb dot group1
     && startsWith (js "-to-") tail
     && (0 <? length group2) && forallb dot group2
  then Some (group1, group2)
  else None.

Fixpoint backtrack (k : nat) (rest : jsstring) : option (jsstring * jsstring) :=
  match splitAt k rest with
  | Some groups => Some groups
  | None =>
      match k with
      | O => None
      | S k' => backtrack k' rest
      end
  end.

Definition translateRegExp (s : jsstring) : option (jsstring * jsstring) :=
  if startsWith (js "translate-") s
  then let rest := skipn (length (js "translate-")) s in
       backtrack (length rest) rest
  else None.

(** [{ source: match[1], target: match[2] }], or [null]. *)
Definition parseTranslationAction (action : jsstring) : option (jsstring * jsstring) :=
  translateRegExp action.

Module ScriptDetectorRest.
Import ScriptDetector.

Definition containsCyrillic (text : jsstring) : bool := CYRILLIC_RANGE_test text.
Definition containsLatin (text : jsstring) : bool := LATIN_RANGE_test text.

End ScriptDetectorRest.

(* ================================================================== *)
(** * Shared types, the service worker and the popup: what uses the core *)
(* ================================================================== *)

Inductive script : Type := latinAlphabet | cyrillicAlphabet.

Record LanguageInfo : Type := {
  code : jsstring;
  languageName : jsstring;
  nativeName : jsstring;
  languageScript : script
}.

(** [Object.values(LANGUAGES)]: the values in the order of the keys. *)
Definition LANGUAGES : list LanguageInfo :=
  [ {| code := js "en"; languageName := js "English";
       nativeName := js "English"; languageScript := latinAlphabet |};
    {| code := js "ru"; languageName := js "Russian";
       nativeName := js "Русский"; languageScript := cyrillicAlphabet |};
    {| code := js "uz-latn"; languageName := js "Uzbek (Latin)";
       nativeName := js "O'zbek"; languageScript := latinAlphabet |};
    {| code := js "uz-cyrl"; languageName := js "Uzbek (Cyrillic)";
       nativeName := js "Ўзбек"; languageScript := cyrillicAlphabet |} ].

Record ContextMenuItem : Type := { menuId : jsstring; title : jsstring }.

Definition CONVERSION_MENU_ITEMS : list ContextMenuItem :=
  [ {| menuId := js "latin-to-cyrillic"; title := js "Latin → Cyrillic (Russian)" |};
    {| menuId := js "cyrillic-to-latin"; title := js "Cyrillic → Latin (Russian)" |};
    {| menuId := js "uz-latn-to-uz-cyrl"; title := js "Uzbek Latin → Cyrillic" |};
    {| menuId := js "uz-cyrl-to-uz-latn"; title := js "Uzbek Cyrillic → Latin" |} ].

(** The pairs the two nested loops keep: different codes, and not the two
    Uzbek scripts. *)
Definition translatable (source target : LanguageInfo) : bool :=
  negb (streq (code source) (code target)) &&
  negb ((streq (code source) (js "uz-latn") && streq (code target) (js "uz-cyrl")) ||
        (streq (code source) (js "uz-cyrl") && streq (code target) (js "uz-latn"))).

Definition translationItem (source target : LanguageInfo) : ContextMenuItem :=
  {| menuId := js "translate-" ++ code source ++ js "-to-" ++ code target;
     title := languageName source ++ js " → " ++ languageName target |}.

Definition getTranslationMenuItems : list ContextMenuItem :=
  flat_map (fun source =>
    flat_map (fun target =>
      if translatable source target then [translationItem source target] else [])
      LANGUAGES)
    LANGUAGES.

(** The service worker's own set of conversion ids. *)
Definition CONVERSION_TYPES : list jsstring :=
  [ js "latin-to-cyrillic"; js "cyrillic-to-latin";
    js "uz-latn-to-uz-cyrl"; js "uz-cyrl-to-uz-latn" ].

(** What the context-menu click listener does with a menu id, once the tab,
    the selection and the settings let it through. *)
Inductive clickAction : Type :=
| HandleConversion (conversionType : jsstring)
| HandleTranslation (sourceLang targetLang : jsstring)
| QuickTranslate
| Nothing.

Definition onClicked (menuId : jsstring) : clickAction :=
  if existsb (streq menuId) CONVERSION_TYPES then HandleConversion menuId
  else if startsWith (js "translate-") menuId && includes (js "-to-") menuId then
    match translateRegExp menuId with
    | Some (sourceLang, targetLang) => HandleTranslation sourceLang targetLang
    | None => Nothing
    end
  else if streq menuId (js "quick-translate") then QuickTranslate
  else Nothing.

(** The two filters of the popup's [renderMappings]. *)
Definition singleCharMappings (mappings : list CharacterMapping) : list CharacterMapping :=
  filter (fun m => (length (latin m) =? 1) && (length (cyrillic m) =? 1)) mappings.

Definition digraphs (mappings : list CharacterMapping) : list CharacterMapping :=
  filter (fun m => 1 <? length (latin m)) mappings.

(* ================================================================== *)
(** * Specification vocabulary *)
(* ================================================================== *)

Section Vocabulary.
Context `{CaseConversion}.

(** A key matches at cursor [i]: the chunk of the key's length that starts
    there equals the key once lower-cased. *)
Definition matchesAt (key text : jsstring) (i : nat) : Prop :=
  toLowerCase (substring text i (i + length key)) = key.

(** The case rule in the specification's words. *)
Definition allUpper (chunk : jsstring) : bool :=
  negb (streq chunk (toLowerCase chunk)) && streq chunk (toUpperCase chunk).

Definition firstIsUpper (chunk : jsstring) : bool :=
  match chunk with
  | c :: _ => negb (streq [c] (toLowerCase [c])) && streq [c] (toUpperCase [c])
  | [] => false
  end.

Definition capitalizeFirst (target : jsstring) : jsstring :=
  match target with
  | t :: rest => toUpperCase [t] ++ rest
  | [] => []
  end.

Definition caseRule (chunk target : jsstring) : jsstring :=
  if allUpper chunk then toUpperCase target
  else if firstIsUpper chunk then capitalizeFirst target
  else target.

(** An index whose keys are the scanned ones and are non-empty. *)
Definition wellFormed (sortedKeys : list jsstring) (m : Map jsstring) : Prop :=
  forall k, In k sortedKeys -> k <> [] /\ In k (keys m).

(** [runs]: the loop from the start of [text] returns [out], with some
    fuel. *)
Definition runs (ks : list jsstring) (m : Map jsstring) (text out : jsstring) : Prop :=
  exists fuel, whileLoop fuel ks m text 0 [] = Returns out.

End Vocabulary.

(** What totality of one of the four functions means: over its key list and
    index, every key is non-empty and is found by [get]; an iteration inside
    the text never raises and moves the cursor forward; and the function
    returns on every text, whatever fuel at least the text's length the loop
    is given, with the empty string for the empty text. *)
Definition totalOver `{CaseConversion} (sortedKeys : list jsstring)
           (m : Map jsstring) (f : jsstring -> outcome) : Prop :=
  (forall k, In k sortedKeys -> k <> [] /\ exists v, get k m = Some v) /\
  (forall text i result, i < length text ->
     exists i' result',
       loopBody sortedKeys m text i result = Next i' result' /\ i < i') /\
  (forall text, exists out,
     f text = Returns out /\
     forall fuel, length text <= fuel ->
       whileLoop fuel sortedKeys m text 0 [] = Returns out) /\
  f [] = Returns [].

(** The converter a sequence of [registerConverter] calls registered last
    under an id. *)
Definition lastRegistered (type : jsstring) (calls : list Converter.t)
  : option Converter.t :=
  find (fun c => streq type (Converter.id c)) (rev calls).

(** The letters the classifier counts, unit by unit, and a share of them
    as the code computes it, in binary64. *)
Definition latinLetters (text : jsstring) : N :=
  N.of_nat (length (filter ScriptDetector.latinUnit text)).

Definition cyrillicLetters (text : jsstring) : N :=
  N.of_nat (length (filter ScriptDetector.cyrillicUnit text)).

Definition percentage (n total : N) : float :=
  (ScriptDetector.number n / ScriptDetector.number total * 100)%float.

(** [n] is at least 90% of [total], in exact arithmetic. *)
Definition atLeast90 (n total : N) : bool := (9 * total <=? 10 * n)%N.

(** The binary64 test and the exact one agree on every count up to a
    bound. *)
Definition agreesUpTo (bound : nat) : bool :=
  forallb (fun total =>
    forallb (fun n =>
      Bool.eqb (PrimFloat.leb 90 (percentage (N.of_nat n) (N.of_nat total)))
               (atLeast90 (N.of_nat n) (N.of_nat total)))
      (seq 0 (S total)))
    (seq 1 bound).

(** An outcome with a string put in front of what was returned, and an
    iteration with its cursor moved. *)
Definition prepend (p : jsstring) (o : outcome) : outcome :=
  match o with
  | Returns s => Returns (p ++ s)
  | other => other
  end.

Definition shift `{CaseConversion} (i : nat) (it : iteration) : iteration :=
  match it with
  | Next d result => Next (i + d) result
  | Raise e => Raise e
  end.

(** The keys of the Uzbek reverse index after the first, which is the
    digraph "нг". *)
Definition singleUnitKeys : list jsstring := skipn 1 Uzbek.sortedCyrillicKeys.

(** The soft sign, small or capital, as a code unit. *)
Definition softSign (c : N) : Prop := [c] = js "ь" \/ [c] = js "Ь".

(** The first and the last entry of a table for a source token. *)
Definition firstFor (source target : CharacterMapping -> jsstring)
           (key : jsstring) (table : list CharacterMapping) : option jsstring :=
  option_map target (find (fun e => streq key (source e)) table).

Definition lastFor (source target : CharacterMapping -> jsstring)
           (key : jsstring) (table : list CharacterMapping) : option jsstring :=
  option_map target (find (fun e => streq key (source e)) (rev table)).

(** ** Vocabulary of the further properties *)

Definition memN (u : N) (l : list N) : bool := existsb (N.eqb u) l.

(** The units that are keys on their own. *)
Definition singleKeyUnits (ks : list jsstring) : list N :=
  flat_map (fun k => match k with [u] => [u] | _ => [] end) ks.

(** A unit that no one-unit key matches, under the built-in case
    conversion. *)
Definition inert (ks : list jsstring) (c : N) : bool :=
  negb (memN (Unicode.lowerUnit c) (singleKeyUnits ks)).

(** Every key has a unit that is a key on its own. *)
Definition coveredKeys (ks : list jsstring) : bool :=
  forallb (fun k => existsb (fun u => memN u (singleKeyUnits ks)) k) ks.

(** Every unit of every target, as it is and upper-cased, is inert. *)
Definition inertTargets (ks : list jsstring) (m : Map jsstring) : bool :=
  forallb (fun target =>
    forallb (fun u => inert ks u && inert ks (Unicode.upperUnit u)) target)
    (values m).

(** No target is longer than [bound] times its key. *)
Definition targetsWithin (bound : nat) (m : Map jsstring) : bool :=
  forallb (fun entry => length (snd entry) <=? bound * length (fst entry)) m.

(** What the further properties need of an index, checked by evaluation. *)
Definition checkedIndex (m : Map jsstring) : bool :=
  forallb (fun k => negb (length k =? 0)) (keys m)
  && coveredKeys (getSortedKeys m)
  && inertTargets (getSortedKeys m) m
  && forallb (fun u => (u <? 1280)%N) (singleKeyUnits (getSortedKeys m)).

(** No string occurs twice. *)
Fixpoint distinct (l : list jsstring) : bool :=
  match l with
  | [] => true
  | k :: l' => negb (existsb (streq k) l') && distinct l'
  end.

(** The ids of a sequence of calls, each at its first occurrence. *)
Fixpoint newIds (seen ids : list jsstring) : list jsstring :=
  match ids with
  | [] => []
  | x :: rest =>
      if existsb (streq x) seen then newIds seen rest
      else x :: newIds (seen ++ [x]) rest
  end.

Definition firstOccurrences (ids : list jsstring) : list jsstring := newIds [] ids.

(** The entries of a table that neither filter of [renderMappings] keeps. *)
Definition notRendered (mappings : list CharacterMapping) : list CharacterMapping :=
  filter (fun m => negb ((length (latin m) =? 1) && (length (cyrillic m) =? 1))
                   && negb (1 <? length (latin m))) mappings.

(** A unit that lower-cases to no unit of any key. *)
Definition separator (ks : list jsstring) (c : N) : bool :=
  negb (memN (Unicode.lowerUnit c) (concat ks)).

(** The first units of the keys, and the check that every unit allowed in
    a text that lower-cases to one of them is changed by upper-casing. *)
Definition firstUnits (ks : list jsstring) : list N :=
  flat_map (fun k => match k with u :: _ => [u] | [] => [] end) ks.

Definition casedStarts (ks : list jsstring) (allowed : N -> bool) : bool :=
  forallb (fun n =>
             let c := N.of_nat n in
             negb (allowed c)
             || negb (memN (Unicode.lowerUnit c) (firstUnits ks))
             || negb (Unicode.upperUnit c =? Unicode.lowerUnit c)%N)
          (seq 0 1280)
  && forallb (fun u => (u <? 1280)%N) (firstUnits ks).

(** A unit that is neither of the Cyrillic block nor an upper-case Latin
    letter. *)
Definition lowerOnly (c : N) : bool :=
  negb (ScriptDetector.cyrillicUnit c) && negb ((65 <=? c)%N && (c <=? 90)%N).

Definition foundAs (found : option (jsstring * jsstring)) (k : jsstring) : bool :=
  match found with
  | Some (key, chunk) => streq key k && streq chunk k
  | None => false
  end.

Definition valueIs (value : option jsstring) (v : jsstring) : bool :=
  match value with
  | Some v' => streq v' v
  | None => false
  end.

(** What the way back needs of an entry of the Uzbek Latin to Cyrillic
    index: a lower-case target that starts with "г" only for "g"; "нг" only
    for "ng"; and otherwise a target of one unit, "н" only for "n", that is
    a key of the reverse index and maps back to the entry's key as it is. *)
Definition uzbekEntryCheck (e : jsstring * jsstring) : bool :=
  match snd e with
  | [] => false
  | u :: rest =>
      (Unicode.lowerUnit u =? u)%N
      && (negb (u =? 1075)%N || streq (fst e) (js "g"))
      && (if streq (snd e) (js "нг") then streq (fst e) (js "ng")
          else (length rest =? 0)
               && (negb (u =? 1085)%N || streq (fst e) (js "n"))
               && foundAs (@forKeys Unicode.caseConversion singleUnitKeys (snd e) 0)
                          (snd e)
               && valueIs (get (snd e) Uzbek.cyrillicToLatin) (fst e)
               && streq (@matchCase Unicode.caseConversion (snd e) (fst e)) (fst e))
  end.

(** Letters of the Russian alphabet, both cases. *)
Definition russianLetter (u : N) : bool :=
  ((1040 <=? u)%N && (u <=? 1103)%N) || (u =? 1025)%N || (u =? 1105)%N.

(* ================================================================== *)
(** * Strings and maps: basic facts *)
(* ================================================================== *)

Lemma streq_eq (a b : jsstring) : streq a b = true <-> a = b.
Proof.
  revert b; induction a as [|x a IH]; intros [|y b]; simpl; split;
    try congruence; try reflexivity.
  - intros E. apply andb_true_iff in E as [E1 E2].
    apply N.eqb_eq in E1. apply IH in E2. congruence.
  - intros E. injection E as -> ->. rewrite N.eqb_refl. simpl. now apply IH.
Qed.

Lemma streq_refl (a : jsstring) : streq a a = true.
Proof. now apply streq_eq. Qed.

Lemma streq_neq (a b : jsstring) : streq a b = false <-> a <> b.
Proof.
  split.
  - intros E ->. rewrite streq_refl in E. discriminate.
  - intros N. destruct (streq a b) eqn:E; [|reflexivity].
    apply streq_eq in E. contradiction.
Qed.

Lemma substring_from (s : jsstring) (i n : nat) :
  i <= length s -> substring s i (i + n) = firstn n (skipn i s).
Proof.
  intros Hi. unfold substring.
  replace (Nat.min i (length s)) with i by lia.
  destruct (Nat.le_gt_cases (i + n) (length s)) as [Hn|Hn].
  - replace (Nat.min (i + n) (length s)) with (i + n) by lia.
    replace (Nat.min i (i + n)) with i by lia.
    replace (Nat.max i (i + n) - i) with n by lia. reflexivity.
  - replace (Nat.min (i + n) (length s)) with (length s) by lia.
    replace (Nat.min i (length s)) with i by lia.
    replace (Nat.max i (length s) - i) with (length s - i) by lia.
    rewrite <- (length_skipn i s).
    rewrite firstn_all. symmetry. apply firstn_all2.
    rewrite length_skipn. lia.
Qed.

Lemma index_skipn (s : jsstring) (i : nat) : index s i = index (skipn i s) 0.
Proof.
  unfold index. revert s; induction i as [|i IH]; intros s.
  - reflexivity.
  - destruct s as [|c s]; [reflexivity|]. simpl. apply IH.
Qed.

Section MapFacts.
Variable V : Type.
Implicit Types (m : Map V) (k : jsstring) (v : V).

Lemma get_set m k k' v :
  get k (set k' v m) = if streq k k' then Some v else get k m.
Proof.
  induction m as [|[k0 v0] m IH]; simpl.
  - reflexivity.
  - destruct (streq k' k0) eqn:E0; simpl.
    + apply streq_eq in E0. subst k0.
      destruct (streq k k'); reflexivity.
    + destruct (streq k k0) eqn:E1.
      * apply streq_eq in E1. subst k0.
        destruct (streq k k') eqn:E2; [|reflexivity].
        apply streq_eq in E2. subst k'. rewrite streq_refl in E0. discriminate.
      * apply IH.
Qed.

Lemma get_In_keys m k : In k (keys m) -> exists v, get k m = Some v.
Proof.
  induction m as [|[k0 v0] m IH]; simpl; [contradiction|].
  intros [->|Hin].
  - rewrite streq_refl. eauto.
  - destruct (streq k k0); eauto.
Qed.

Lemma get_Some_In_keys m k v : get k m = Some v -> In k (keys m).
Proof.
  induction m as [|[k0 v0] m IH]; simpl; [discriminate|].
  destruct (streq k k0) eqn:E.
  - apply streq_eq in E. auto.
  - auto.
Qed.

Lemma has_true_iff m k : has k m = true <-> In k (keys m).
Proof.
  unfold has. split.
  - destruct (get k m) eqn:E; [|discriminate]. intros _. eapply get_Some_In_keys; eauto.
  - intros Hin. apply get_In_keys in Hin as [v ->]. reflexivity.
Qed.

End MapFacts.

(** A run of [set] calls: the last call for a key decides its value. *)
Lemma find_app (A : Type) (f : A -> bool) (l1 l2 : list A) :
  find f (l1 ++ l2) = match find f l1 with Some a => Some a | None => find f l2 end.
Proof.
  induction l1 as [|a l1 IH]; simpl; [reflexivity|].
  destruct (f a); [reflexivity|exact IH].
Qed.

Lemma get_fold_set (A V : Type) (key : A -> jsstring) (val : A -> V)
      (calls : list A) (acc : Map V) (k : jsstring) :
  get k (fold_left (fun m a => set (key a) (val a) m) calls acc)
  = match find (fun a => streq k (key a)) (rev calls) with
    | Some a => Some (val a)
    | None => get k acc
    end.
Proof.
  revert acc. induction calls as [|a calls IH]; intros acc; simpl.
  - reflexivity.
  - rewrite IH, find_app. simpl.
    destruct (find _ (rev calls)); [reflexivity|].
    rewrite get_set. destruct (streq k (key a)); reflexivity.
Qed.

Lemma mainLoop_fst (table : list CharacterMapping) acc :
  fst (fold_left setMain table acc)
  = fold_left (fun m e => set (latin e) (cyrillic e) m) table (fst acc).
Proof.
  revert acc. induction table as [|e table IH]; intros acc; simpl;
    [reflexivity|now rewrite IH].
Qed.

Lemma mainLoop_snd (table : list CharacterMapping) acc :
  snd (fold_left setMain table acc)
  = fold_left (fun m e => set (cyrillic e) (latin e) m) table (snd acc).
Proof.
  revert acc. induction table as [|e table IH]; intros acc; simpl;
    [reflexivity|now rewrite IH].
Qed.

(** The extras loop leaves every key that is present as it is. *)
Lemma setExtra_keeps (m : Map jsstring) (e : CharacterMapping) key v :
  get key m = Some v -> get key (Uzbek.setExtra m e) = Some v.
Proof.
  intros Hget. unfold Uzbek.setExtra.
  destruct (has (cyrillic e) m) eqn:Hhas; simpl; [exact Hget|].
  rewrite get_set. destruct (streq key (cyrillic e)) eqn:E; [|exact Hget].
  apply streq_eq in E. subst key. unfold has in Hhas. now rewrite Hget in Hhas.
Qed.

Lemma extras_keep (extras : list CharacterMapping) (m : Map jsstring) key v :
  get key m = Some v -> get key (fold_left Uzbek.setExtra extras m) = Some v.
Proof.
  revert m. induction extras as [|e extras IH]; intros m Hget; simpl.
  - exact Hget.
  - apply IH. now apply setExtra_keeps.
Qed.

(** ** The key order *)

Lemma insertByLength_In k k0 sorted :
  In k (insertByLength k0 sorted) <-> k = k0 \/ In k sorted.
Proof.
  induction sorted as [|k' rest IH]; simpl.
  - intuition.
  - destruct (length k' <=? length k0); simpl; rewrite ?IH; intuition.
Qed.

Lemma getSortedKeys_In (m : Map jsstring) k :
  In k (getSortedKeys m) <-> In k (keys m).
Proof.
  unfold getSortedKeys. induction (keys m) as [|k0 ks IH]; simpl.
  - reflexivity.
  - rewrite insertByLength_In, IH. intuition.
Qed.

(** Longest first: every key is at least as long as the keys after it. *)
Inductive longestFirst : list jsstring -> Prop :=
| longestFirst_nil : longestFirst []
| longestFirst_cons k rest :
    (forall k', In k' rest -> length k' <= length k) ->
    longestFirst rest -> longestFirst (k :: rest).

Lemma insertByLength_longestFirst k sorted :
  longestFirst sorted -> longestFirst (insertByLength k sorted).
Proof.
  induction 1 as [|k' rest Hle Hrest IH]; simpl.
  - constructor; [intros ? []|constructor].
  - destruct (length k' <=? length k) eqn:E.
    + apply Nat.leb_le in E. constructor; [|now constructor].
      intros k'' [<-|Hin]; [lia|]. specialize (Hle _ Hin). lia.
    + apply Nat.leb_gt in E. constructor; [|exact IH].
      intros k'' Hin. apply insertByLength_In in Hin as [->|Hin]; [lia|auto].
Qed.

Lemma getSortedKeys_longestFirst (m : Map jsstring) : longestFirst (getSortedKeys m).
Proof.
  unfold getSortedKeys. induction (keys m); simpl.
  - constructor.
  - now apply insertByLength_longestFirst.
Qed.

(* ================================================================== *)
(** * The transducer: the key scan *)
(* ================================================================== *)

Section ScanFacts.
Context `{CaseConversion}.

Lemma forKeys_Some ks text i key chunk :
  forKeys ks text i = Some (key, chunk) ->
  In key ks /\ chunk = substring text i (i + length key) /\ toLowerCase chunk = key.
Proof.
  induction ks as [|k rest IH]; simpl; [discriminate|].
  destruct (streq (toLowerCase (substring text i (i + length k))) k) eqn:E.
  - intros [= <- <-]. apply streq_eq in E. auto.
  - intros Hrest. apply IH in Hrest. tauto.
Qed.

Lemma forKeys_None ks text i :
  forKeys ks text i = None -> forall k, In k ks -> ~ matchesAt k text i.
Proof.
  unfold matchesAt.
  induction ks as [|k rest IH]; simpl; [intros _ ? []|].
  destruct (streq (toLowerCase (substring text i (i + length k))) k) eqn:E;
    [discriminate|].
  intros Hrest k' [<-|Hin].
  - now apply streq_neq.
  - now apply IH.
Qed.

Lemma forKeys_longest ks text i key chunk :
  longestFirst ks ->
  forKeys ks text i = Some (key, chunk) ->
  forall k, In k ks -> matchesAt k text i -> length k <= length key.
Proof.
  unfold matchesAt.
  induction 1 as [|k0 rest Hle Hrest IH]; simpl; [discriminate|].
  destruct (streq (toLowerCase (substring text i (i + length k0))) k0) eqn:E.
  - intros [= <- <-] k [<-|Hin] _; [lia|auto].
  - intros Hfound k [<-|Hin] Hk.
    + apply streq_neq in E. contradiction.
    + now apply IH.
Qed.

Lemma forKeys_matches ks text i k :
  In k ks -> matchesAt k text i -> forKeys ks text i <> None.
Proof.
  intros Hin Hk Hnone. exact (forKeys_None _ _ _ Hnone _ Hin Hk).
Qed.

(** ** The loop: totality *)

Lemma loopBody_advances sortedKeys m text i result :
  wellFormed sortedKeys m -> i < length text ->
  exists i' result', loopBody sortedKeys m text i result = Next i' result' /\ i < i'.
Proof.
  intros WF Hi. unfold loopBody.
  destruct (forKeys sortedKeys text i) as [[key chunk]|] eqn:E.
  - apply forKeys_Some in E as (Hin & _ & _).
    destruct (WF _ Hin) as [Hne Hkeys].
    apply get_In_keys in Hkeys as [v ->].
    do 2 eexists. split; [reflexivity|].
    destruct key; [contradiction|simpl; lia].
  - destruct (index text i); do 2 eexists; (split; [reflexivity|lia]).
Qed.

Lemma whileLoop_returns sortedKeys m text :
  wellFormed sortedKeys m ->
  forall fuel i result, length text - i <= fuel ->
  exists out, whileLoop fuel sortedKeys m text i result = Returns out.
Proof.
  intros WF. induction fuel as [|fuel IH]; intros i result Hfuel; simpl.
  - destruct (i <? length text) eqn:E; [apply Nat.ltb_lt in E; lia|eauto].
  - destruct (i <? length text) eqn:E; [|eauto].
    apply Nat.ltb_lt in E.
    destruct (loopBody_advances sortedKeys m text i result WF E)
      as (i' & result' & -> & Hlt).
    apply IH. lia.
Qed.

(** More fuel than the loop uses changes nothing. *)
Lemma whileLoop_fuel sortedKeys m text :
  forall fuel fuel' i result out,
  whileLoop fuel sortedKeys m text i result = Returns out ->
  fuel <= fuel' ->
  whileLoop fuel' sortedKeys m text i result = Returns out.
Proof.
  induction fuel as [|fuel IH]; intros fuel' i result out; simpl.
  - destruct (i <? length text) eqn:E; [discriminate|].
    intros Hout _. destruct fuel'; simpl; rewrite E; exact Hout.
  - destruct (i <? length text) eqn:E.
    + intros Hout Hle. destruct fuel' as [|fuel']; [lia|]. simpl. rewrite E.
      destruct (loopBody sortedKeys m text i result); [|exact Hout].
      apply IH; [exact Hout|lia].
    + intros Hout _. destruct fuel'; simpl; rewrite E; exact Hout.
Qed.

Lemma transliterate_total sortedKeys m text :
  wellFormed sortedKeys m ->
  exists out, transliterate sortedKeys m text = Returns out /\
    forall fuel, length text <= fuel ->
      whileLoop fuel sortedKeys m text 0 [] = Returns out.
Proof.
  intros WF. unfold transliterate.
  destruct (whileLoop_returns sortedKeys m text WF (length text) 0 []) as [out Hout]; [lia|].
  exists out. split; [exact Hout|].
  intros fuel Hle. eapply whileLoop_fuel; eauto.
Qed.

End ScanFacts.

(* ================================================================== *)
(** * The transducer: the loop only looks ahead of the cursor *)
(* ================================================================== *)

Lemma substring_skipn (s : jsstring) (i n : nat) :
  substring s i (i + n) = firstn n (skipn i s).
Proof.
  destruct (Nat.le_gt_cases i (length s)) as [Hi|Hi].
  - now apply substring_from.
  - rewrite skipn_all2 by lia. rewrite firstn_nil.
    unfold substring.
    replace (Nat.min i (length s)) with (length s) by lia.
    replace (Nat.min (i + n) (length s)) with (length s) by lia.
    now rewrite Nat.max_id, Nat.min_id, Nat.sub_diag.
Qed.

Lemma substring_0 (s : jsstring) (n : nat) : substring s 0 (0 + n) = firstn n s.
Proof. apply (substring_skipn s 0 n). Qed.

Section Suffix.
Context `{CaseConversion}.

Lemma forKeys_skipn ks text i :
  forKeys ks text i = forKeys ks (skipn i text) 0.
Proof.
  induction ks as [|k ks IH]; cbn [forKeys]; [reflexivity|].
  rewrite substring_skipn, IH, substring_0. reflexivity.
Qed.

Lemma loopBody_skipn ks m text i result :
  loopBody ks m text i result = shift i (loopBody ks m (skipn i text) 0 result).
Proof.
  unfold loopBody. rewrite forKeys_skipn, index_skipn.
  destruct (forKeys ks (skipn i text) 0) as [[key chunk]|].
  - destruct (get key m); [reflexivity|].
    destruct (length chunk =? 0); reflexivity.
  - destruct (index (skipn i text) 0); reflexivity.
Qed.

Lemma whileLoop_skipn ks m :
  forall fuel text i result,
  whileLoop fuel ks m text i result = whileLoop fuel ks m (skipn i text) 0 result.
Proof.
  assert (T : forall (text : jsstring) i, (i <? length text) = (0 <? length (skipn i text))).
  { intros text i. rewrite length_skipn.
    destruct (i <? length text) eqn:E; symmetry.
    - apply Nat.ltb_lt in E. apply Nat.ltb_lt. lia.
    - apply Nat.ltb_ge in E. apply Nat.ltb_ge. lia. }
  induction fuel as [|fuel IH]; intros text i result; simpl; rewrite <- T.
  - reflexivity.
  - destruct (i <? length text); [|reflexivity].
    rewrite loopBody_skipn.
    destruct (loopBody ks m (skipn i text) 0 result) as [d r|e]; simpl;
      [|reflexivity].
    rewrite IH. rewrite (IH (skipn i text) d r).
    now rewrite skipn_skipn, (Nat.add_comm d i).
Qed.

Lemma loopBody_prepend ks m text i p result :
  loopBody ks m text i (p ++ result)
  = match loopBody ks m text i result with
    | Next i' r => Next i' (p ++ r)
    | Raise e => Raise e
    end.
Proof.
  unfold loopBody.
  destruct (forKeys ks text i) as [[key chunk]|].
  - destruct (get key m); [now rewrite app_assoc|].
    destruct (length chunk =? 0); [now rewrite app_assoc|reflexivity].
  - destruct (index text i); now rewrite app_assoc.
Qed.

Lemma whileLoop_prepend ks m text p :
  forall fuel i result,
  whileLoop fuel ks m text i (p ++ result)
  = prepend p (whileLoop fuel ks m text i result).
Proof.
  induction fuel as [|fuel IH]; intros i result; simpl.
  - destruct (i <? length text); reflexivity.
  - destruct (i <? length text); [|reflexivity].
    rewrite loopBody_prepend.
    destruct (loopBody ks m text i result); [apply IH|reflexivity].
Qed.

Lemma runs_nil ks m out : runs ks m [] out <-> out = [].
Proof.
  split.
  - intros [fuel Hrun]. destruct fuel; simpl in Hrun; congruence.
  - intros ->. now exists 0.
Qed.

Lemma runs_step ks m text d r out :
  text <> [] ->
  loopBody ks m text 0 [] = Next d r ->
  runs ks m (skipn d text) out ->
  runs ks m text (r ++ out).
Proof.
  intros Hne Hbody [fuel Hrun]. exists (S fuel). simpl.
  destruct text as [|c text]; [contradiction|]. cbn [length Nat.ltb Nat.leb].
  rewrite Hbody, whileLoop_skipn.
  rewrite <- (app_nil_r r), whileLoop_prepend, Hrun. simpl.
  now rewrite app_nil_r.
Qed.

Lemma runs_inv ks m text out :
  text <> [] ->
  runs ks m text out ->
  exists d r out',
    loopBody ks m text 0 [] = Next d r /\
    runs ks m (skipn d text) out' /\ out = r ++ out'.
Proof.
  intros Hne [fuel Hrun].
  destruct text as [|c text]; [contradiction|].
  destruct fuel as [|fuel]; simpl in Hrun; [discriminate|].
  destruct (loopBody ks m (c :: text) 0 []) as [d r|e] eqn:Hbody; [|discriminate].
  rewrite whileLoop_skipn in Hrun.
  rewrite <- (app_nil_r r), whileLoop_prepend in Hrun.
  destruct (whileLoop fuel ks m (skipn d (c :: text)) 0 []) as [out'| |] eqn:Hrest;
    simpl in Hrun; try discriminate.
  exists d, r, out'. split; [reflexivity|]. split; [now exists fuel|].
  congruence.
Qed.

Lemma transliterate_runs ks m text out :
  wellFormed ks m ->
  (transliterate ks m text = Returns out <-> runs ks m text out).
Proof.
  intros WF. split.
  - intros Hout. now exists (length text).
  - intros [fuel Hrun].
    destruct (transliterate_total ks m text WF) as (out' & Hout' & Hany).
    rewrite Hout'. f_equal.
    pose proof (whileLoop_fuel ks m text fuel (Nat.max fuel (length text)) 0 []
                  out Hrun (Nat.le_max_l _ _)) as E.
    rewrite (Hany _ (Nat.le_max_r _ _)) in E. congruence.
Qed.

(** Keys of one unit look at one unit. *)
Lemma forKeys_single_unit ks c t1 t2 :
  Forall (fun k => length k = 1) ks ->
  forKeys ks (c :: t1) 0 = forKeys ks (c :: t2) 0.
Proof.
  induction 1 as [|k ks Hk Hks IH]; cbn [forKeys]; [reflexivity|].
  rewrite !substring_0, Hk, IH. reflexivity.
Qed.

(** Text past the reach of every key is not looked at. *)
Lemma forKeys_app ks text extra :
  Forall (fun k => length k <= length text) ks ->
  forKeys ks (text ++ extra) 0 = forKeys ks text 0.
Proof.
  induction 1 as [|k ks Hk Hks IH]; cbn [forKeys]; [reflexivity|].
  rewrite IH, !substring_0.
  now rewrite firstn_app, (proj2 (Nat.sub_0_le _ _) Hk), firstn_O, app_nil_r.
Qed.

End Suffix.

Lemma wellFormed_getSortedKeys `{CaseConversion} (m : Map jsstring) :
  forallb (fun k => negb (length k =? 0)) (keys m) = true ->
  wellFormed (getSortedKeys m) m.
Proof.
  intros Hall k Hin. apply getSortedKeys_In in Hin. split; [|exact Hin].
  rewrite forallb_forall in Hall. specialize (Hall _ Hin).
  intros ->. discriminate.
Qed.

Lemma totalOver_wellFormed `{CaseConversion} sortedKeys m :
  wellFormed sortedKeys m ->
  totalOver sortedKeys m (transliterate sortedKeys m).
Proof.
  intros WF. repeat split.
  - now apply WF.
  - apply get_In_keys. now apply WF.
  - intros text i result Hi. now apply loopBody_advances.
  - intros text. now apply transliterate_total.
Qed.

(* ================================================================== *)
(** * The registry and the classifier: facts *)
(* ================================================================== *)

Lemma registered_get (calls : list Converter.t) (type : jsstring) :
  get type (registered calls) = lastRegistered type calls.
Proof.
  unfold registered, registerConverter, lastRegistered.
  rewrite (get_fold_set _ _ Converter.id (fun c => c) calls [] type).
  simpl. destruct (find _ (rev calls)); reflexivity.
Qed.

Lemma lastRegistered_None (calls : list Converter.t) (type : jsstring) :
  lastRegistered type calls = None <-> ~ In type (map Converter.id calls).
Proof.
  unfold lastRegistered. split.
  - intros Hnone Hin. apply in_map_iff in Hin as (c & <- & Hc).
    apply in_rev in Hc.
    apply (find_none _ _ Hnone) in Hc. rewrite streq_refl in Hc. discriminate.
  - intros Hnot. destruct (find _ (rev calls)) as [c|] eqn:E; [|reflexivity].
    apply find_some in E as [Hc E]. apply streq_eq in E. subst type.
    exfalso. apply Hnot. apply in_map. now apply in_rev.
Qed.

Module DetectorFacts.
Import ScriptDetector.

Lemma surrogate_not_counted (c : N) :
  highSurrogate c = true \/ lowSurrogate c = true ->
  latinUnit c = false /\ cyrillicUnit c = false.
Proof.
  unfold highSurrogate, lowSurrogate, latinUnit, cyrillicUnit.
  intros [E|E]; apply andb_true_iff in E as [E1 E2];
    apply N.leb_le in E1; apply N.leb_le in E2;
    (split; [apply orb_false_iff; split|]);
    apply andb_false_iff; right; apply N.leb_gt; lia.
Qed.

Lemma latin_not_cyrillic (c : N) : latinUnit c = true -> cyrillicUnit c = false.
Proof.
  unfold latinUnit, cyrillicUnit. intros E.
  apply andb_false_iff. left. apply N.leb_gt.
  apply orb_true_iff in E as [E|E]; apply andb_true_iff in E as [_ E];
    apply N.leb_le in E; lia.
Qed.

Lemma count_unit (a b c : N) :
  count (a, b) [c]
  = ((a + (if latinUnit c then 1 else 0))%N, (b + (if cyrillicUnit c then 1 else 0))%N).
Proof.
  unfold count, LATIN_RANGE_test, CYRILLIC_RANGE_test. simpl.
  rewrite !orb_false_r.
  destruct (latinUnit c) eqn:L.
  - rewrite (latin_not_cyrillic c L). now rewrite N.add_0_r.
  - destruct (cyrillicUnit c); now rewrite ?N.add_0_r.
Qed.

Lemma letters_cons (c : N) (text : jsstring) :
  latinLetters (c :: text) = ((if latinUnit c then 1 else 0) + latinLetters text)%N /\
  cyrillicLetters (c :: text)
  = ((if cyrillicUnit c then 1 else 0) + cyrillicLetters text)%N.
Proof.
  unfold latinLetters, cyrillicLetters. cbn [filter].
  destruct (latinUnit c), (cyrillicUnit c); cbn [length];
    rewrite ?Nat2N.inj_succ; split; lia.
Qed.

Lemma chars_cons (c d : N) (rest : jsstring) :
  chars (c :: d :: rest)
  = if highSurrogate c && lowSurrogate d
    then [c; d] :: chars rest
    else [c] :: chars (d :: rest).
Proof. reflexivity. Qed.

Lemma count_chars (n : nat) :
  forall text, length text <= n -> forall a b,
  fold_left count (chars text) (a, b)
  = ((a + latinLetters text)%N, (b + cyrillicLetters text)%N).
Proof.
  induction n as [|n IH]; intros text Hlen a b.
  - destruct text; [|simpl in Hlen; lia]. simpl.
    now rewrite !N.add_0_r.
  - destruct text as [|c [|d rest]].
    + simpl. now rewrite !N.add_0_r.
    + cbn [chars fold_left]. rewrite count_unit.
      destruct (letters_cons c []) as [-> ->].
      change (latinLetters []) with 0%N. change (cyrillicLetters []) with 0%N.
      now rewrite !N.add_0_r.
    + rewrite chars_cons.
      destruct (highSurrogate c && lowSurrogate d) eqn:E.
      * apply andb_true_iff in E as [Ec Ed].
        destruct (surrogate_not_counted c (or_introl Ec)) as [Lc Cc].
        destruct (surrogate_not_counted d (or_intror Ed)) as [Ld Cd].
        cbn [fold_left].
        replace (count (a, b) [c; d]) with (a, b).
        2:{ unfold count, LATIN_RANGE_test, CYRILLIC_RANGE_test. simpl.
            now rewrite Lc, Ld, Cc, Cd. }
        rewrite IH by (simpl in Hlen; lia).
        destruct (letters_cons c (d :: rest)) as [-> ->].
        destruct (letters_cons d rest) as [-> ->].
        now rewrite Lc, Ld, Cc, Cd.
      * cbn [fold_left]. rewrite count_unit.
        rewrite IH by (simpl in Hlen; simpl; lia).
        destruct (letters_cons c (d :: rest)) as [-> ->].
        now rewrite !N.add_assoc.
Qed.

Lemma analyzeScript_counts (text : jsstring) :
  fold_left count (chars text) (0%N, 0%N) = (latinLetters text, cyrillicLetters text).
Proof. now rewrite (count_chars (length text)). Qed.

Lemma agrees_100 : agreesUpTo 100 = true.
Proof. vm_compute. reflexivity. Qed.

Lemma percentage_exact (n total : N) :
  (n <= total)%N -> (0 < total)%N -> (total <= 100)%N ->
  PrimFloat.leb 90 (percentage n total) = atLeast90 n total.
Proof.
  intros Hn Hpos Hle.
  pose proof agrees_100 as A. unfold agreesUpTo in A.
  rewrite forallb_forall in A.
  specialize (A (N.to_nat total)).
  rewrite forallb_forall in A.
  specialize (fun H => A H (N.to_nat n)).
  rewrite !N2Nat.id in A.
  apply Bool.eqb_prop, A; apply in_seq; lia.
Qed.

End DetectorFacts.

(** The four functions return on every text. *)
Lemma builtIn_returns `{CaseConversion} (text : jsstring) :
  (exists out, LatinCyrillic.latinToCyrillicConvert text = Returns out) /\
  (exists out, LatinCyrillic.cyrillicToLatinConvert text = Returns out) /\
  (exists out, Uzbek.uzbekLatinToCyrillic text = Returns out) /\
  (exists out, Uzbek.uzbekCyrillicToLatin text = Returns out).
Proof.
  assert (T : forall m, forallb (fun k => negb (length k =? 0)) (keys m) = true ->
              exists out, transliterate (getSortedKeys m) m text = Returns out).
  { intros m Hm.
    destruct (transliterate_total (getSortedKeys m) m text
                (wellFormed_getSortedKeys m Hm)) as (out & Hout & _).
    now exists out. }
  split; [|split; [|split]]; apply T; vm_compute; reflexivity.
Qed.

Import Unicode.

(* ================================================================== *)
(** * The Uzbek reverse index and the soft sign *)
(* ================================================================== *)

Lemma nth_error_skipn_cons (A : Type) (l : list A) (i : nat) (a : A) :
  nth_error l i = Some a -> exists rest, skipn i l = a :: rest.
Proof.
  revert l. induction i as [|i IH]; intros [|b l]; simpl; try discriminate.
  - intros [= ->]. eauto.
  - apply IH.
Qed.

Module UzbekFacts.

(** The sorted key list: the digraph "нг", then keys of one unit. *)
Lemma sortedCyrillicKeys_shape :
  Uzbek.sortedCyrillicKeys = js "нг" :: singleUnitKeys.
Proof. reflexivity. Qed.

Lemma singleUnitKeys_length : Forall (fun k => length k = 1) singleUnitKeys.
Proof.
  apply Forall_forall. intros k Hin.
  assert (E : forallb (fun k => length k =? 1) singleUnitKeys = true)
    by (vm_compute; reflexivity).
  rewrite forallb_forall in E. apply Nat.eqb_eq. exact (E k Hin).
Qed.

Lemma wellFormed_cyrillic :
  wellFormed Uzbek.sortedCyrillicKeys Uzbek.cyrillicToLatin.
Proof. apply wellFormed_getSortedKeys. vm_compute. reflexivity. Qed.

(** The digraph does not match a chunk whose second unit is a soft sign,
    nor one that starts with a soft sign, nor a chunk of one unit. *)
Lemma digraph_before_soft_sign c sign t :
  softSign sign ->
  streq (toLowerCase (firstn 2 (c :: sign :: t))) (js "нг") = false.
Proof.
  intros [[= ->]|[= ->]]; cbn -[lowerUnit N.eqb];
    change (N.eqb (lowerUnit _) 1075%N) with false;
    apply andb_false_r.
Qed.

Lemma digraph_at_soft_sign sign t :
  softSign sign ->
  streq (toLowerCase (firstn 2 (sign :: t))) (js "нг") = false.
Proof. intros [[= ->]|[= ->]]; reflexivity. Qed.

Lemma digraph_one_unit c :
  streq (toLowerCase (firstn 2 [c])) (js "нг") = false.
Proof. cbn -[lowerUnit N.eqb]. apply andb_false_r. Qed.

Lemma soft_sign_found sign rest :
  softSign sign ->
  forKeys Uzbek.sortedCyrillicKeys (sign :: rest) 0 = Some (js "ь", [sign]).
Proof.
  intros Hs. rewrite sortedCyrillicKeys_shape. cbn [forKeys].
  rewrite substring_0. change (length (js "нг")) with 2.
  rewrite (digraph_at_soft_sign sign rest Hs).
  rewrite (forKeys_single_unit singleUnitKeys sign rest [] singleUnitKeys_length).
  destruct Hs as [[= ->]|[= ->]]; vm_compute; reflexivity.
Qed.

Lemma soft_sign_step sign rest result :
  softSign sign ->
  loopBody Uzbek.sortedCyrillicKeys Uzbek.cyrillicToLatin (sign :: rest) 0 result
  = Next 1 result.
Proof.
  intros Hs. unfold loopBody. rewrite (soft_sign_found sign rest Hs).
  change (get (js "ь") Uzbek.cyrillicToLatin) with (Some (@nil N)).
  unfold matchCase. cbn [length Nat.eqb orb]. now rewrite app_nil_r.
Qed.

Lemma forKeys_before_soft_sign c before sign after :
  softSign sign ->
  forKeys Uzbek.sortedCyrillicKeys ((c :: before) ++ sign :: after) 0
  = forKeys Uzbek.sortedCyrillicKeys (c :: before) 0.
Proof.
  intros Hs. destruct before as [|b before].
  - rewrite sortedCyrillicKeys_shape. cbn [forKeys app].
    rewrite !substring_0. change (length (js "нг")) with 2.
    rewrite (digraph_before_soft_sign c sign after Hs), digraph_one_unit.
    apply forKeys_single_unit, singleUnitKeys_length.
  - apply forKeys_app. apply Forall_forall. intros k Hin.
    assert (E : forallb (fun k => length k <=? 2) Uzbek.sortedCyrillicKeys = true)
      by (vm_compute; reflexivity).
    rewrite forallb_forall in E. apply E, Nat.leb_le in Hin.
    simpl. lia.
Qed.

Lemma step_before_soft_sign c before sign after d r :
  softSign sign ->
  loopBody Uzbek.sortedCyrillicKeys Uzbek.cyrillicToLatin (c :: before) 0 [] = Next d r ->
  loopBody Uzbek.sortedCyrillicKeys Uzbek.cyrillicToLatin
           ((c :: before) ++ sign :: after) 0 [] = Next d r /\
  1 <= d <= length (c :: before).
Proof.
  intros Hs Hbody. split.
  - unfold loopBody in *. rewrite (forKeys_before_soft_sign c before sign after Hs).
    exact Hbody.
  - unfold loopBody in Hbody.
    destruct (forKeys Uzbek.sortedCyrillicKeys (c :: before) 0)
      as [[key chunk]|] eqn:E.
    + pose proof E as E'. apply forKeys_Some in E' as (Hin & _ & _).
      destruct (wellFormed_cyrillic key Hin) as [Hne Hkeys].
      apply get_In_keys in Hkeys as [v Hv]. rewrite Hv in Hbody.
      injection Hbody as <- _. cbn [Nat.add].
      split; [destruct key; [contradiction|simpl; lia]|].
      destruct before as [|b before].
      * rewrite sortedCyrillicKeys_shape in E. cbn [forKeys] in E.
        rewrite substring_0 in E. change (length (js "нг")) with 2 in E.
        rewrite digraph_one_unit in E.
        apply forKeys_Some in E as (Hin' & _ & _).
        pose proof singleUnitKeys_length as L. rewrite Forall_forall in L.
        rewrite (L _ Hin'). simpl. lia.
      * assert (L : forallb (fun k => length k <=? 2) Uzbek.sortedCyrillicKeys = true)
          by (vm_compute; reflexivity).
        rewrite forallb_forall in L. apply L, Nat.leb_le in Hin. simpl. lia.
    + cbn [index nth_error] in Hbody. injection Hbody as <- _. simpl. lia.
Qed.

Lemma runs_around_soft_sign (n : nat) :
  forall before, length before <= n ->
  forall sign after out1 out2,
  softSign sign ->
  runs Uzbek.sortedCyrillicKeys Uzbek.cyrillicToLatin before out1 ->
  runs Uzbek.sortedCyrillicKeys Uzbek.cyrillicToLatin after out2 ->
  runs Uzbek.sortedCyrillicKeys Uzbek.cyrillicToLatin
       (before ++ sign :: after) (out1 ++ out2).
Proof.
  induction n as [|n IH]; intros before Hlen sign after out1 out2 Hs H1 H2.
  - destruct before; [|simpl in Hlen; lia].
    apply runs_nil in H1. subst out1. simpl.
    change out2 with ([] ++ out2).
    apply (runs_step _ _ (sign :: after) 1 []); [discriminate| |exact H2].
    now apply soft_sign_step.
  - destruct before as [|c before].
    + apply runs_nil in H1. subst out1. simpl.
      change out2 with ([] ++ out2).
      apply (runs_step _ _ (sign :: after) 1 []); [discriminate| |exact H2].
      now apply soft_sign_step.
    + apply runs_inv in H1 as (d & r & out' & Hbody & Hrest & ->); [|discriminate].
      destruct (step_before_soft_sign c before sign after d r Hs Hbody)
        as (Hbody' & Hd1 & Hd2).
      rewrite <- app_assoc.
      apply (runs_step _ _ ((c :: before) ++ sign :: after) d r);
        [discriminate|exact Hbody'|].
      rewrite skipn_app.
      replace (d - length (c :: before)) with 0 by lia.
      cbn [skipn]. apply IH; trivial.
      rewrite length_skipn. cbn [length] in Hlen, Hd2 |- *. lia.
Qed.

End UzbekFacts.

(* ================================================================== *)
(** * Claims *)
(* ================================================================== *)

(** C1. Greedy longest match.  For every index [m], text and cursor [i]:
    when the key scan over [getSortedKeys m] finds a key, that key belongs
    to the index, matches the chunk at [i] case-insensitively, is at least
    as long as every key of the index that matches there, and the iteration
    emits the case-adjusted target and moves the cursor past the key; when
    the scan finds none, no key of the index matches at [i].  For the
    generic scheme the first token matched in "shchuka" is "shch", and
    [latinToCyrillicConvert "shchuka"] returns "щука". *)
Theorem greedy_longest_match :
  (forall (C : CaseConversion) (m : Map jsstring) (text : jsstring) (i : nat)
          (result : jsstring),
     match forKeys (getSortedKeys m) text i with
     | Some (key, chunk) =>
         In key (keys m) /\
         chunk = substring text i (i + length key) /\
         matchesAt key text i /\
         (forall k, In k (keys m) -> matchesAt k text i -> length k <= length key) /\
         exists target, get key m = Some target /\
           loopBody (getSortedKeys m) m text i result
           = Next (i + length key) (result ++ matchCase chunk target)
     | None => forall k, In k (keys m) -> ~ matchesAt k text i
     end) /\
  forKeys LatinCyrillic.sortedLatinKeys (js "shchuka") 0
    = Some (js "shch", js "shch") /\
  LatinCyrillic.latinToCyrillicConvert (js "shchuka") = Returns (js "щука").
Proof.
  split; [|split; vm_compute; reflexivity].
  intros C m text i result.
  destruct (forKeys (getSortedKeys m) text i) as [[key chunk]|] eqn:E.
  - pose proof E as E'. apply forKeys_Some in E' as (Hin & Hchunk & Hlow).
    apply getSortedKeys_In in Hin.
    repeat split; trivial.
    + unfold matchesAt. now rewrite <- Hchunk.
    + intros k Hk. eapply forKeys_longest; eauto using getSortedKeys_longestFirst.
      now apply getSortedKeys_In.
    + destruct (get_In_keys _ _ _ Hin) as [target Hget].
      exists target. split; [exact Hget|].
      unfold loopBody. now rewrite E, Hget.
  - intros k Hk. eapply forKeys_None; eauto. now apply getSortedKeys_In.
Qed.

(** A use of C1 on the generic Latin index at the start of "shchuka": the
    keys "sh" and "s" match there too and are shorter than the key found. *)
Lemma greedy_longest_match_witness :
  matchesAt (js "sh") (js "shchuka") 0 /\ matchesAt (js "s") (js "shchuka") 0 /\
  match forKeys (getSortedKeys LatinCyrillic.latinToCyrillic) (js "shchuka") 0 with
  | Some (key, _) => length (js "sh") <= length key /\ length (js "s") <= length key
  | None => False
  end.
Proof.
  pose proof (proj1 greedy_longest_match caseConversion
                LatinCyrillic.latinToCyrillic (js "shchuka") 0 []) as G.
  split; [reflexivity|]. split; [reflexivity|].
  destruct (forKeys (getSortedKeys LatinCyrillic.latinToCyrillic) (js "shchuka") 0)
    as [[key chunk]|].
  - destruct G as (_ & _ & _ & Hlongest & _).
    split; apply Hlongest; vm_compute; intuition.
  - apply (G (js "s")); vm_compute; intuition.
Defined.

(** C2. The case rule.  [matchCase] is the rule in the specification's
    words: the target fully upper-cased when the chunk differs from its
    lower-cased form and equals its upper-cased form; otherwise the target
    with its first character upper-cased and the rest unchanged when the
    chunk's first character is uppercase; otherwise the target verbatim.
    Every iteration of the loop that matches a key emits exactly that for
    its own chunk, whatever was emitted before. *)
Theorem matchCase_is_caseRule :
  forall (C : CaseConversion),
    (forall chunk target, matchCase chunk target = caseRule chunk target) /\
    (forall sortedKeys m text i result key chunk target,
       forKeys sortedKeys text i = Some (key, chunk) ->
       get key m = Some target ->
       loopBody sortedKeys m text i result
       = Next (i + length key) (result ++ caseRule chunk target)).
Proof.
  intros C.
  assert (R : forall chunk target, matchCase chunk target = caseRule chunk target).
  { intros chunk target. unfold matchCase, caseRule, allUpper.
    destruct chunk as [|c chunk].
    - simpl. rewrite toLowerCase_empty. reflexivity.
    - destruct target as [|t target].
      + simpl. rewrite toUpperCase_empty.
        destruct (_ && _); [reflexivity|]. destruct (_ && _); reflexivity.
      + cbn [length Nat.eqb orb].
        rewrite (andb_comm (negb _)).
        destruct (_ && _); [reflexivity|].
        unfold index, isUpperCase, capitalizeFirst, slice1. simpl.
        reflexivity. }
  split; [exact R|].
  intros sortedKeys m text i result key chunk target Hfound Hget.
  unfold loopBody. now rewrite Hfound, Hget, R.
Qed.

(** A use of C2 at the start of "Shchuka": the chunk "Shch" is not all
    upper case and starts with an upper-case letter, so "щ" is emitted
    capitalised. *)
Lemma matchCase_is_caseRule_witness :
  forKeys LatinCyrillic.sortedLatinKeys (js "Shchuka") 0 = Some (js "shch", js "Shch") /\
  get (js "shch") LatinCyrillic.latinToCyrillic = Some (js "щ") /\
  loopBody LatinCyrillic.sortedLatinKeys LatinCyrillic.latinToCyrillic
           (js "Shchuka") 0 []
  = Next 4 (js "Щ").
Proof.
  split; [reflexivity|]. split; [reflexivity|].
  apply (proj2 (matchCase_is_caseRule caseConversion)
           LatinCyrillic.sortedLatinKeys LatinCyrillic.latinToCyrillic
           (js "Shchuka") 0 [] (js "shch") (js "Shch") (js "щ"));
    reflexivity.
Defined.

(** C3, as the specification states it, fails on the generic tables: the
    reverse index has the key "кс" itself, with value "x". *)
Lemma ks_reads_back_as_x :
  LatinCyrillic.cyrillicToLatinConvert (js "кс") <> Returns (js "ks").
Proof. vm_compute. discriminate. Qed.

(** C3, amended.  The round trip is lossy, but not at "x": for the generic
    scheme "x" becomes "кс" and "кс" becomes "x" again.  It is lost, for
    one, at "сх", which becomes "sh" and comes back as "ш", and in the other
    direction at "k", which becomes "к" and comes back as "q". *)
Theorem round_trip_lossy :
  LatinCyrillic.latinToCyrillicConvert (js "x") = Returns (js "кс") /\
  LatinCyrillic.cyrillicToLatinConvert (js "кс") = Returns (js "x") /\
  (exists x latin cyrillic,
     LatinCyrillic.cyrillicToLatinConvert x = Returns latin /\
     LatinCyrillic.latinToCyrillicConvert latin = Returns cyrillic /\
     cyrillic <> x /\
     x = js "сх" /\ latin = js "sh" /\ cyrillic = js "ш") /\
  (exists x cyrillic latin,
     LatinCyrillic.latinToCyrillicConvert x = Returns cyrillic /\
     LatinCyrillic.cyrillicToLatinConvert cyrillic = Returns latin /\
     latin <> x /\
     x = js "k" /\ cyrillic = js "к" /\ latin = js "q").
Proof.
  split; [reflexivity|]. split; [reflexivity|]. split.
  - exists (js "сх"), (js "sh"), (js "ш").
    repeat split; try reflexivity. vm_compute. discriminate.
  - exists (js "k"), (js "к"), (js "q").
    repeat split; try reflexivity. vm_compute. discriminate.
Qed.

(** C4, as the specification states it, fails: in the generic table the
    first entry for "х" is "kh", and the reverse index holds "h". *)
Lemma first_registered_does_not_win :
  firstFor cyrillic latin (js "х") LatinCyrillic.LATIN_CYRILLIC_MAP = Some (js "kh") /\
  get (js "х") LatinCyrillic.cyrillicToLatin = Some (js "h") /\
  get (js "х") LatinCyrillic.cyrillicToLatin
    <> firstFor cyrillic latin (js "х") LatinCyrillic.LATIN_CYRILLIC_MAP.
Proof. vm_compute. repeat split; discriminate. Qed.

(** C4, amended.  In the indexes built from a main table the entry
    registered last wins: every [set] call takes effect, overwriting the
    value of a key that is present.  This holds for every table and both
    directions; in the generic Cyrillic to Latin index "х", "ц", "в" and
    "к", which arise from two forward entries each, hold the latin token of
    the later one. *)
Theorem last_registered_wins :
  (forall (V : Type) (m : Map V) (k k' : jsstring) (v : V),
     get k (set k' v m) = if streq k k' then Some v else get k m) /\
  (forall (table : list CharacterMapping) (key : jsstring),
     get key (fst (mainLoop table)) = lastFor latin cyrillic key table /\
     get key (snd (mainLoop table)) = lastFor cyrillic latin key table) /\
  get (js "х") LatinCyrillic.cyrillicToLatin = Some (js "h") /\
  get (js "ц") LatinCyrillic.cyrillicToLatin = Some (js "c") /\
  get (js "в") LatinCyrillic.cyrillicToLatin = Some (js "w") /\
  get (js "к") LatinCyrillic.cyrillicToLatin = Some (js "q").
Proof.
  split; [exact get_set|].
  split; [|repeat split; reflexivity].
  intros table key. unfold mainLoop, lastFor.
  rewrite mainLoop_fst, mainLoop_snd, !get_fold_set. simpl.
  split; destruct (find _ (rev table)); reflexivity.
Qed.

(** C5, as the specification states it, fails: "е" does not read back as
    "ye". *)
Lemma e_does_not_read_back_as_ye :
  Uzbek.uzbekCyrillicToLatin (js "е") <> Returns (js "ye").
Proof. vm_compute. discriminate. Qed.

(** C5, amended.  In the Uzbek reverse index "е" maps to "e", the latin
    token of the main entry that claimed the slot, and
    [uzbekCyrillicToLatin "е"] returns "e": an extra is set only when its
    key is absent, so a key that is present, from the main table or from an
    earlier extra, keeps its value through the whole extras loop. *)
Theorem canonical_entries_take_priority :
  Uzbek.uzbekCyrillicToLatin (js "е") = Returns (js "e") /\
  get (js "е") Uzbek.cyrillicToLatin = Some (js "e") /\
  (forall (m : Map jsstring) (e : CharacterMapping),
     Uzbek.setExtra m e
     = if has (cyrillic e) m then m else set (cyrillic e) (latin e) m) /\
  (forall (extras : list CharacterMapping) (m : Map jsstring) (key v : jsstring),
     get key m = Some v -> get key (fold_left Uzbek.setExtra extras m) = Some v) /\
  (forall (key v : jsstring),
     get key (snd (mainLoop Uzbek.UZBEK_LATIN_CYRILLIC_MAP)) = Some v ->
     get key Uzbek.cyrillicToLatin = Some v).
Proof.
  split; [reflexivity|]. split; [reflexivity|]. split; [|split].
  - intros m e. unfold Uzbek.setExtra. destruct (has _ m); reflexivity.
  - exact extras_keep.
  - intros key v Hget. unfold Uzbek.cyrillicToLatin, Uzbek.buildLookupMaps.
    cbn [snd]. now apply extras_keep.
Qed.

(** A use of C5 on the main entry for "е". *)
Lemma canonical_entries_take_priority_witness :
  get (js "е") (snd (mainLoop Uzbek.UZBEK_LATIN_CYRILLIC_MAP)) = Some (js "e") /\
  get (js "е") Uzbek.cyrillicToLatin = Some (js "e").
Proof.
  split; [reflexivity|].
  apply (proj2 (proj2 (proj2 (proj2 canonical_entries_take_priority)))).
  reflexivity.
Defined.

(** C6.  The code at the two documented examples: "salom" becomes "салом";
    "rahmat" becomes "раҳмат", with U+04B3 for "h", where the documents
    have "рахмат", with U+0445. *)
Theorem uzbek_documented_examples :
  Uzbek.uzbekLatinToCyrillic (js "salom") = Returns (js "салом") /\
  Uzbek.uzbekLatinToCyrillic (js "rahmat") = Returns (js "раҳмат") /\
  Uzbek.uzbekLatinToCyrillic (js "rahmat") <> Returns (js "рахмат").
Proof. vm_compute. repeat split; discriminate. Qed.

(** C7.  [convert] throws the unknown-converter error exactly when no
    [registerConverter] call was made for the id, and otherwise returns
    what the converter registered last under the id returns on the text.
    With the four built-in converters and any case conversion, [convert]
    throws that error exactly for the ids other than the four, and returns
    a string for each of the four; [convert "x" "not-a-real-id"] throws
    it. *)
Theorem convert_unknown_converter :
  (forall (calls : list Converter.t) (text type : jsstring),
     (getConverter type (registered calls) = None
      <-> ~ In type (map Converter.id calls)) /\
     (getConverter type (registered calls) = None ->
      convert (registered calls) text type = Throws (unknownConverter type)) /\
     (forall c, getConverter type (registered calls) = Some c ->
      lastRegistered type calls = Some c /\
      convert (registered calls) text type = Converter.convert c text)) /\
  (forall (C : CaseConversion) (text type : jsstring),
     (convert (registered builtInCalls) text type = Throws (unknownConverter type)
      <-> ~ In type (map Converter.id builtInCalls)) /\
     (In type (map Converter.id builtInCalls) ->
      exists out, convert (registered builtInCalls) text type = Returns out)) /\
  convert (registered builtInCalls) (js "x") (js "not-a-real-id")
  = Throws (Error (js "Unknown converter: not-a-real-id")).
Proof.
  assert (G : forall calls text type c,
             getConverter type (registered calls) = Some c ->
             convert (registered calls) text type = Converter.convert c text).
  { intros calls text type c Hget. unfold convert.
    unfold getConverter in Hget. now rewrite Hget. }
  assert (U : forall calls text type,
             getConverter type (registered calls) = None ->
             convert (registered calls) text type = Throws (unknownConverter type)).
  { intros calls text type Hget. unfold convert.
    unfold getConverter in Hget. now rewrite Hget. }
  split; [|split; [|reflexivity]].
  - intros calls text type. split; [|split].
    + unfold getConverter. rewrite registered_get. apply lastRegistered_None.
    + apply U.
    + intros c Hget. split; [|now apply G].
      unfold getConverter in Hget. now rewrite registered_get in Hget.
  - intros C text type.
    assert (R : In type (map Converter.id builtInCalls) ->
                exists out, convert (registered builtInCalls) text type = Returns out).
    { intros Hin. simpl in Hin.
      destruct (builtIn_returns text) as (R1 & R2 & R3 & R4).
      destruct Hin as [<-|[<-|[<-|[<-|[]]]]].
      - exact R1.
      - exact R2.
      - exact R3.
      - exact R4. }
    split; [|exact R]. split.
    + intros Hthrow Hin. destruct (R Hin) as [out Hout].
      rewrite Hout in Hthrow. discriminate.
    + intros Hnot. apply U. unfold getConverter.
      rewrite registered_get. now apply lastRegistered_None.
Qed.

(** A use of C7 on the built-in registry and an id that was never
    registered. *)
Lemma convert_unknown_converter_witness :
  ~ In (js "not-a-real-id") (map Converter.id builtInCalls) /\
  convert (registered builtInCalls) (js "x") (js "not-a-real-id")
  = Throws (unknownConverter (js "not-a-real-id")).
Proof.
  assert (N : ~ In (js "not-a-real-id") (map Converter.id builtInCalls)).
  { simpl. intros [E|[E|[E|[E|[]]]]]; discriminate E. }
  split; [exact N|].
  destruct (proj1 convert_unknown_converter builtInCalls (js "x") (js "not-a-real-id"))
    as (Hnone & Hthrow & _).
  apply Hthrow, Hnone, N.
Defined.

(** C8.  The classifier on every text, in terms of the Latin and Cyrillic
    letters it contains: with no such letter the result is [unknown] with
    every count and percentage zero; otherwise the counts are those of the
    letters, the percentages are their shares of the counted letters as
    binary64 numbers, and the type is latin when the Latin share is at
    least 90, else cyrillic when the Cyrillic share is at least 90, else
    mixed.  Nine Latin letters and one Cyrillic letter give latin; 89 and 11
    give mixed.  Up to a hundred counted letters the binary64 tests are the
    exact ones: latin when [9 * total <= 10 * latin], and likewise for
    cyrillic. *)
Theorem analyzeScript_classifies :
  forall (text : jsstring),
    let l := latinLetters text in
    let c := cyrillicLetters text in
    ((l + c)%N = 0%N ->
     ScriptDetector.analyzeScript text
     = {| ScriptDetector.type := ScriptDetector.unknown;
          ScriptDetector.latinCount := 0;
          ScriptDetector.cyrillicCount := 0;
          ScriptDetector.totalLetters := 0;
          ScriptDetector.latinPercentage := 0%float;
          ScriptDetector.cyrillicPercentage := 0%float |}) /\
    ((l + c)%N <> 0%N ->
     ScriptDetector.analyzeScript text
     = {| ScriptDetector.type :=
            if PrimFloat.leb 90 (percentage l (l + c))
            then ScriptDetector.latinScript
            else if PrimFloat.leb 90 (percentage c (l + c))
                 then ScriptDetector.cyrillicScript
                 else ScriptDetector.mixed;
          ScriptDetector.latinCount := l;
          ScriptDetector.cyrillicCount := c;
          ScriptDetector.totalLetters := (l + c)%N;
          ScriptDetector.latinPercentage := percentage l (l + c);
          ScriptDetector.cyrillicPercentage := percentage c (l + c) |}) /\
    (l = 9%N -> c = 1%N ->
     ScriptDetector.type (ScriptDetector.analyzeScript text)
     = ScriptDetector.latinScript) /\
    (l = 89%N -> c = 11%N ->
     ScriptDetector.type (ScriptDetector.analyzeScript text)
     = ScriptDetector.mixed) /\
    ((0 < l + c)%N -> (l + c <= 100)%N ->
     ScriptDetector.type (ScriptDetector.analyzeScript text)
     = if atLeast90 l (l + c) then ScriptDetector.latinScript
       else if atLeast90 c (l + c) then ScriptDetector.cyrillicScript
       else ScriptDetector.mixed).
Proof.
  intros text l c.
  assert (A : (l + c)%N <> 0%N ->
     ScriptDetector.analyzeScript text
     = {| ScriptDetector.type :=
            if PrimFloat.leb 90 (percentage l (l + c))
            then ScriptDetector.latinScript
            else if PrimFloat.leb 90 (percentage c (l + c))
                 then ScriptDetector.cyrillicScript
                 else ScriptDetector.mixed;
          ScriptDetector.latinCount := l;
          ScriptDetector.cyrillicCount := c;
          ScriptDetector.totalLetters := (l + c)%N;
          ScriptDetector.latinPercentage := percentage l (l + c);
          ScriptDetector.cyrillicPercentage := percentage c (l + c) |}).
  { intros Hpos. unfold ScriptDetector.analyzeScript.
    rewrite DetectorFacts.analyzeScript_counts. fold l c.
    destruct (l + c =? 0)%N eqn:E; [apply N.eqb_eq in E; contradiction|].
    assert (P : (0 <? l + c)%N = true) by (apply N.ltb_lt; lia).
    rewrite P. unfold percentage.
    destruct (PrimFloat.leb 90 _); [reflexivity|].
    destruct (PrimFloat.leb 90 _); reflexivity. }
  split; [|split; [exact A|split; [|split]]].
  - intros Hzero. unfold ScriptDetector.analyzeScript.
    rewrite DetectorFacts.analyzeScript_counts. fold l c.
    now rewrite Hzero.
  - intros Hl Hc. rewrite A by (rewrite Hl, Hc; discriminate).
    rewrite Hl, Hc. reflexivity.
  - intros Hl Hc. rewrite A by (rewrite Hl, Hc; discriminate).
    rewrite Hl, Hc. reflexivity.
  - intros Hpos Hle. rewrite A by lia. cbn [ScriptDetector.type].
    rewrite !DetectorFacts.percentage_exact by lia. reflexivity.
Qed.

(** A use of C8 on a text of nine Latin letters and one Cyrillic letter,
    with a digit, a space and an emoji that are not counted. *)
Lemma analyzeScript_classifies_witness :
  latinLetters (js "privet, 😀 mirб 7") = 9%N /\
  cyrillicLetters (js "privet, 😀 mirб 7") = 1%N /\
  ScriptDetector.type (ScriptDetector.analyzeScript (js "privet, 😀 mirб 7"))
  = ScriptDetector.latinScript.
Proof.
  split; [reflexivity|]. split; [reflexivity|].
  apply (proj1 (proj2 (proj2 (analyzeScript_classifies (js "privet, 😀 mirб 7")))));
    reflexivity.
Defined.

(** C9.  Totality of the four functions, for any case conversion: every
    key of each sorted key list is non-empty and is found in its index;
    an iteration inside the text does not raise and moves the cursor
    forward; each function returns a string on every text, with any fuel
    from the text's length up; and each returns the empty string on the
    empty text. *)
Theorem transliteration_total :
  forall (C : CaseConversion),
    totalOver LatinCyrillic.sortedLatinKeys LatinCyrillic.latinToCyrillic
              LatinCyrillic.latinToCyrillicConvert /\
    totalOver LatinCyrillic.sortedCyrillicKeys LatinCyrillic.cyrillicToLatin
              LatinCyrillic.cyrillicToLatinConvert /\
    totalOver Uzbek.sortedLatinKeys Uzbek.latinToCyrillic
              Uzbek.uzbekLatinToCyrillic /\
    totalOver Uzbek.sortedCyrillicKeys Uzbek.cyrillicToLatin
              Uzbek.uzbekCyrillicToLatin.
Proof.
  intros C. split; [|split; [|split]];
    apply totalOver_wellFormed, wellFormed_getSortedKeys; vm_compute; reflexivity.
Qed.

(** A use of C9 on the generic Latin index: the iteration at the start of
    "shchuka" moves the cursor forward. *)
Lemma transliteration_total_witness :
  exists i' result',
    loopBody LatinCyrillic.sortedLatinKeys LatinCyrillic.latinToCyrillic
             (js "shchuka") 0 [] = Next i' result' /\ 0 < i'.
Proof.
  destruct (transliteration_total caseConversion) as ((_ & Hadvance & _) & _).
  apply Hadvance. simpl. lia.
Defined.

(** C10.  [uzbekCyrillicToLatin] erases the soft sign: its target in the
    reverse index is the empty string, "ь" and "Ь" alone give the empty
    string, an iteration whose cursor is on a soft sign moves one unit on
    and emits nothing, and a text with a soft sign anywhere in it gives what
    the parts before and after it give, put together, so the output can be
    strictly shorter than the input.  The hard sign is kept: "ъ" maps to
    the apostrophe of its main entry. *)
Theorem soft_sign_erased :
  Uzbek.uzbekCyrillicToLatin (js "ь") = Returns [] /\
  Uzbek.uzbekCyrillicToLatin (js "Ь") = Returns [] /\
  get (js "ь") Uzbek.cyrillicToLatin = Some [] /\
  (forall (text : jsstring) (i : nat) (result : jsstring) (sign : N),
     nth_error text i = Some sign -> softSign sign ->
     loopBody Uzbek.sortedCyrillicKeys Uzbek.cyrillicToLatin text i result
     = Next (i + 1) result) /\
  (forall (before after : jsstring) (sign : N) (out1 out2 : jsstring),
     softSign sign ->
     Uzbek.uzbekCyrillicToLatin before = Returns out1 ->
     Uzbek.uzbekCyrillicToLatin after = Returns out2 ->
     Uzbek.uzbekCyrillicToLatin (before ++ sign :: after) = Returns (out1 ++ out2)) /\
  get (js "ъ") Uzbek.cyrillicToLatin = Some (js "'") /\
  Uzbek.uzbekCyrillicToLatin (js "ъ") = Returns (js "'").
Proof.
  split; [reflexivity|]. split; [reflexivity|]. split; [reflexivity|].
  split; [|split; [|split; reflexivity]].
  - intros text i result sign Hnth Hs.
    apply nth_error_skipn_cons in Hnth as [rest Hrest].
    rewrite loopBody_skipn, Hrest, (UzbekFacts.soft_sign_step sign rest result Hs).
    reflexivity.
  - intros before after sign out1 out2 Hs H1 H2.
    unfold Uzbek.uzbekCyrillicToLatin in *.
    apply (transliterate_runs _ _ _ _ UzbekFacts.wellFormed_cyrillic) in H1, H2.
    apply (transliterate_runs _ _ _ _ UzbekFacts.wellFormed_cyrillic).
    now apply (UzbekFacts.runs_around_soft_sign (length before)).
Qed.

(** A use of C10: "коньки" gives what "кон" and "ки" give, five units for
    six. *)
Lemma soft_sign_erased_witness :
  Uzbek.uzbekCyrillicToLatin (js "кон" ++ 1100%N :: js "ки") = Returns (js "konki").
Proof.
  apply (proj1 (proj2 (proj2 (proj2 (proj2 soft_sign_erased))))
           (js "кон") (js "ки") 1100%N (js "kon") (js "ki"));
    [left; reflexivity|reflexivity|reflexivity].
Defined.

(* ================================================================== *)
(** * Further properties: the transducer *)
(* ================================================================== *)

Lemma firstn_succ_nth (A : Type) (l : list A) (i : nat) (a : A) :
  nth_error l i = Some a -> firstn (S i) l = firstn i l ++ [a].
Proof.
  revert l. induction i as [|i IH]; intros [|b l]; simpl; try discriminate.
  - now intros [= ->].
  - intros Hnth. now rewrite <- (IH l Hnth).
Qed.

Lemma In_substring (c : N) (s : jsstring) (i n : nat) :
  In c (substring s i (i + n)) -> In c s.
Proof.
  rewrite substring_skipn. intros Hin.
  rewrite <- (firstn_skipn i s). apply in_or_app. right.
  rewrite <- (firstn_skipn n (skipn i s)). apply in_or_app. now left.
Qed.

Lemma substring_unit (s : jsstring) (i : nat) (c : N) :
  nth_error s i = Some c -> substring s i (i + 1) = [c].
Proof.
  intros Hnth. rewrite substring_skipn.
  apply nth_error_skipn_cons in Hnth as [rest ->]. reflexivity.
Qed.

Section LoopInvariants.
Context `{CaseConversion}.
Variables (ks : list jsstring) (m : Map jsstring) (text : jsstring).

(** An invariant of the iterations holds of what the loop returns. *)
Lemma whileLoop_invariant (Inv : nat -> jsstring -> Prop) :
  (forall i r i' r', i < length text -> Inv i r ->
     loopBody ks m text i r = Next i' r' -> Inv i' r') ->
  forall fuel i r out,
  Inv i r -> whileLoop fuel ks m text i r = Returns out ->
  exists i', length text <= i' /\ Inv i' out.
Proof.
  intros Step. induction fuel as [|fuel IH]; intros i r out HI; simpl.
  - destruct (i <? length text) eqn:E; [discriminate|].
    intros [= <-]. apply Nat.ltb_ge in E. eauto.
  - destruct (i <? length text) eqn:E.
    + apply Nat.ltb_lt in E.
      destruct (loopBody ks m text i r) as [i' r'|e] eqn:B; [|discriminate].
      apply IH. eapply Step; eauto.
    + intros [= <-]. apply Nat.ltb_ge in E. eauto.
Qed.

(** Where no key matches, the loop copies. *)
Lemma whileLoop_copies :
  (forall i, i < length text -> forKeys ks text i = None) ->
  forall fuel i, length text - i <= fuel ->
  whileLoop fuel ks m text i (firstn i text) = Returns text.
Proof.
  intros Hnone. induction fuel as [|fuel IH]; intros i Hfuel; simpl.
  - destruct (i <? length text) eqn:E; [apply Nat.ltb_lt in E; lia|].
    apply Nat.ltb_ge in E. now rewrite firstn_all2.
  - destruct (i <? length text) eqn:E.
    + apply Nat.ltb_lt in E. unfold loopBody. rewrite (Hnone i E).
      destruct (nth_error text i) as [c|] eqn:Hnth.
      * unfold index. rewrite Hnth.
        rewrite <- (firstn_succ_nth _ text i c Hnth), Nat.add_1_r.
        apply IH. lia.
      * apply nth_error_None in Hnth. lia.
    + apply Nat.ltb_ge in E. now rewrite firstn_all2.
Qed.

End LoopInvariants.

Module UnitwiseFacts.

Lemma memN_In (u : N) (l : list N) : memN u l = true <-> In u l.
Proof.
  unfold memN. rewrite existsb_exists. split.
  - intros (x & Hx & E). apply N.eqb_eq in E. now subst.
  - intros Hin. exists u. split; [exact Hin|apply N.eqb_refl].
Qed.

Lemma singleKeyUnits_In (ks : list jsstring) (u : N) :
  In u (singleKeyUnits ks) <-> In [u] ks.
Proof.
  unfold singleKeyUnits. rewrite in_flat_map. split.
  - intros (k & Hk & Hu). destruct k as [|a [|b k]]; simpl in Hu; try tauto.
    destruct Hu as [->|[]]. exact Hk.
  - intros Hin. exists [u]. split; [exact Hin|now left].
Qed.

Lemma forKeys_inert (ks : list jsstring) (text : jsstring) (i : nat) :
  coveredKeys ks = true -> forallb (inert ks) text = true ->
  forKeys ks text i = None.
Proof.
  intros Hcov Hinert.
  destruct (forKeys ks text i) as [[key chunk]|] eqn:E; [exfalso|reflexivity].
  apply forKeys_Some in E as (Hin & Hchunk & Hlow).
  unfold coveredKeys in Hcov. rewrite forallb_forall in Hcov.
  specialize (Hcov key Hin). apply existsb_exists in Hcov as (u & Hu & HS).
  rewrite <- Hlow in Hu. change (toLowerCase chunk) with (map lowerUnit chunk) in Hu.
  apply in_map_iff in Hu as (c & <- & Hc).
  rewrite Hchunk in Hc. apply In_substring in Hc.
  rewrite forallb_forall in Hinert. specialize (Hinert c Hc).
  unfold inert in Hinert. now rewrite HS in Hinert.
Qed.

Lemma passthrough_inert (ks : list jsstring) (text : jsstring) (i : nat) (c : N) :
  forKeys ks text i = None -> nth_error text i = Some c -> inert ks c = true.
Proof.
  intros Hnone Hnth. unfold inert.
  destruct (memN (lowerUnit c) (singleKeyUnits ks)) eqn:E; [exfalso|reflexivity].
  apply memN_In, singleKeyUnits_In in E.
  apply (forKeys_None _ _ _ Hnone _ E).
  unfold matchesAt. cbn [length]. now rewrite (substring_unit text i c Hnth).
Qed.

Lemma matchCase_units (chunk target : jsstring) (u : N) :
  In u (matchCase chunk target) -> In u target \/ In u (map upperUnit target).
Proof.
  unfold matchCase.
  destruct ((length chunk =? 0) || (length target =? 0)); [tauto|].
  destruct (streq chunk (toUpperCase chunk) && negb (streq chunk (toLowerCase chunk)));
    [tauto|].
  destruct chunk as [|c chunk], target as [|t target]; cbn [index nth_error]; try tauto.
  destruct (isUpperCase [c]); [|tauto].
  cbn. tauto.
Qed.

Lemma matchCase_length (chunk target : jsstring) :
  length (matchCase chunk target) = length target.
Proof.
  unfold matchCase.
  destruct ((length chunk =? 0) || (length target =? 0)); [reflexivity|].
  destruct (streq chunk (toUpperCase chunk) && negb (streq chunk (toLowerCase chunk))).
  - apply length_map.
  - destruct chunk as [|c chunk], target as [|t target]; cbn [index nth_error];
      try reflexivity.
    destruct (isUpperCase [c]); reflexivity.
Qed.

(** What the loop returns is made of inert units. *)
Lemma output_inert (ks : list jsstring) (m : Map jsstring) (text out : jsstring) :
  wellFormed ks m ->
  inertTargets ks m = true ->
  transliterate ks m text = Returns out ->
  forallb (inert ks) out = true.
Proof.
  intros WF Htargets Hout. unfold transliterate in Hout.
  destruct (whileLoop_invariant ks m text
              (fun _ r => forallb (inert ks) r = true)) with
      (fuel := length text) (i := 0) (r := @nil N) (out := out)
    as (_ & _ & Hinv); trivial.
  intros i r i' r' Hi Hr. unfold loopBody.
  destruct (forKeys ks text i) as [[key chunk]|] eqn:E.
  - destruct (get key m) as [target|] eqn:G.
    + intros [= <- <-]. rewrite forallb_app, Hr. simpl.
      apply forallb_forall. intros u Hu.
      unfold inertTargets in Htargets. rewrite forallb_forall in Htargets.
      assert (Hv : In target (values m)).
      { clear - G. induction m as [|[k v] m' IH]; simpl in *; [discriminate|].
        destruct (streq key k); [injection G as ->; now left|right; auto]. }
      specialize (Htargets target Hv). rewrite forallb_forall in Htargets.
      apply matchCase_units in Hu as [Hu|Hu].
      * specialize (Htargets u Hu). now apply andb_true_iff in Htargets.
      * apply in_map_iff in Hu as (t & <- & Ht).
        specialize (Htargets t Ht). now apply andb_true_iff in Htargets.
    + apply forKeys_Some in E as (Hin & _ & _).
      destruct (WF key Hin) as [_ Hkeys].
      apply get_In_keys in Hkeys as [v Hv]. congruence.
  - destruct (nth_error text i) as [c|] eqn:Hnth.
    + unfold index. rewrite Hnth. intros [= <- <-].
      rewrite forallb_app, Hr. simpl.
      now rewrite (passthrough_inert ks text i c E Hnth).
    + apply nth_error_None in Hnth. lia.
Qed.

Lemma entry_get (m : Map jsstring) (key target : jsstring) :
  get key m = Some target -> In (key, target) m.
Proof.
  induction m as [|[k v] m' IH]; simpl; [discriminate|].
  destruct (streq key k) eqn:E; [|right; auto].
  apply streq_eq in E. subst k. intros [= ->]. now left.
Qed.

(** The loop emits no more than the longest target per unit it reads. *)
Lemma output_length (ks : list jsstring) (m : Map jsstring) (bound : nat)
      (text out : jsstring) :
  wellFormed ks m -> targetsWithin bound m = true -> 1 <= bound ->
  transliterate ks m text = Returns out ->
  length out <= bound * length text.
Proof.
  intros WF Hwithin Hbound Hout. unfold transliterate in Hout.
  destruct (whileLoop_invariant ks m text
              (fun i r => i <= length text /\ length r <= bound * i)) with
      (fuel := length text) (i := 0) (r := @nil N) (out := out)
    as (i' & Hi' & Hle & Hlen); trivial.
  - intros i r i1 r1 Hi [_ Hr]. unfold loopBody.
    destruct (forKeys ks text i) as [[key chunk]|] eqn:E.
    + apply forKeys_Some in E as (Hin & Hchunk & Hlow).
      destruct (WF key Hin) as [Hne Hkeys].
      apply get_In_keys in Hkeys as [target Hget]. rewrite Hget.
      intros [= <- <-].
      assert (H1 : 1 <= length key) by (destruct key; [contradiction|simpl; lia]).
      assert (Hk : length chunk = length key).
      { rewrite <- Hlow. change (toLowerCase chunk) with (map lowerUnit chunk).
        now rewrite length_map. }
      rewrite Hchunk, substring_skipn, length_firstn, length_skipn in Hk.
      apply Nat.min_l_iff in Hk.
      rewrite length_app, matchCase_length.
      unfold targetsWithin in Hwithin. rewrite forallb_forall in Hwithin.
      specialize (Hwithin (key, target) (entry_get m key target Hget)).
      apply Nat.leb_le in Hwithin. cbn [fst snd] in Hwithin. split; [lia|].
      rewrite Nat.mul_add_distr_l. lia.
    + destruct (nth_error text i) as [c|] eqn:Hnth.
      * unfold index. rewrite Hnth. intros [= <- <-].
        rewrite length_app. simpl. split; [lia|nia].
      * apply nth_error_None in Hnth. lia.
  - simpl. lia.
  - assert (i' = length text) by lia. subst i'. exact Hlen.
Qed.

(** Units from U+0500 on are outside both case tables and every index. *)
Lemma lowerUnit_high (c : N) : (1280 <= c)%N -> lowerUnit c = c.
Proof.
  intros Hc. unfold lowerUnit, between.
  repeat match goal with
         | |- context [(?a <=? ?b)%N] =>
             destruct (N.leb_spec a b); try lia; cbn [andb orb]
         | |- context [(?a =? ?b)%N] =>
             destruct (N.eqb_spec a b); try lia
         end;
    try reflexivity.
Qed.

Lemma upperUnit_high (c : N) : (1280 <= c)%N -> upperUnit c = c.
Proof.
  intros Hc. unfold upperUnit, between.
  repeat match goal with
         | |- context [(?a <=? ?b)%N] =>
             destruct (N.leb_spec a b); try lia; cbn [andb orb]
         | |- context [(?a =? ?b)%N] =>
             destruct (N.eqb_spec a b); try lia
         end;
    try reflexivity.
Qed.

Lemma memN_high (l : list N) (c : N) :
  forallb (fun u => (u <? 1280)%N) l = true -> (1280 <= c)%N -> memN c l = false.
Proof.
  intros Hl Hc. destruct (memN c l) eqn:E; [|reflexivity].
  apply memN_In in E. rewrite forallb_forall in Hl.
  apply Hl, N.ltb_lt in E. lia.
Qed.

Lemma inert_high (ks : list jsstring) (c : N) :
  forallb (fun u => (u <? 1280)%N) (singleKeyUnits ks) = true ->
  (1280 <= c)%N -> inert ks c = true.
Proof.
  intros Hl Hc. unfold inert. rewrite (lowerUnit_high c Hc).
  now rewrite (memN_high _ c Hl Hc).
Qed.

(** A property of units checked below U+0500 one by one and above it by
    hand. *)
Lemma forall_units (P : N -> bool) :
  forallb (fun n => P (N.of_nat n)) (seq 0 1280) = true ->
  (forall c, (1280 <= c)%N -> P c = true) ->
  forall c, P c = true.
Proof.
  intros Hlow Hhigh c. destruct (N.lt_ge_cases c 1280) as [Hc|Hc]; [|auto].
  rewrite forallb_forall in Hlow. specialize (Hlow (N.to_nat c)).
  rewrite N2Nat.id in Hlow. apply Hlow, in_seq. lia.
Qed.

End UnitwiseFacts.

(** The four indexes pass the check. *)
Lemma checked_indexes :
  checkedIndex LatinCyrillic.latinToCyrillic = true /\
  checkedIndex LatinCyrillic.cyrillicToLatin = true /\
  checkedIndex Uzbek.latinToCyrillic = true /\
  checkedIndex Uzbek.cyrillicToLatin = true.
Proof. vm_compute. repeat split. Qed.

Section CheckedIndex.
Variable m : Map jsstring.
Hypothesis Hchecked : checkedIndex m = true.

Lemma checked_parts :
  wellFormed (getSortedKeys m) m /\
  coveredKeys (getSortedKeys m) = true /\
  inertTargets (getSortedKeys m) m = true /\
  forallb (fun u => (u <? 1280)%N) (singleKeyUnits (getSortedKeys m)) = true.
Proof.
  unfold checkedIndex in Hchecked.
  apply andb_true_iff in Hchecked as [H123 H4].
  apply andb_true_iff in H123 as [H12 H3].
  apply andb_true_iff in H12 as [H1 H2].
  repeat split; trivial; now apply (wellFormed_getSortedKeys m H1).
Qed.

(** Inert text comes back as it is. *)
Lemma inert_text_unchanged (text : jsstring) :
  forallb (inert (getSortedKeys m)) text = true ->
  transliterate (getSortedKeys m) m text = Returns text.
Proof.
  intros Hinert. destruct checked_parts as (_ & Hcov & _).
  unfold transliterate.
  apply (whileLoop_copies (getSortedKeys m) m text) with (i := 0); [|lia].
  intros i _. now apply UnitwiseFacts.forKeys_inert.
Qed.

Lemma checked_output_inert (text out : jsstring) :
  transliterate (getSortedKeys m) m text = Returns out ->
  forallb (inert (getSortedKeys m)) out = true.
Proof.
  destruct checked_parts as (WF & _ & Htargets & _).
  now apply UnitwiseFacts.output_inert.
Qed.

Lemma checked_idempotent (text out : jsstring) :
  transliterate (getSortedKeys m) m text = Returns out ->
  transliterate (getSortedKeys m) m out = Returns out.
Proof.
  intros Hout. apply inert_text_unchanged. now apply (checked_output_inert text).
Qed.

(** A property of units that holds of every inert unit holds of the
    output. *)
Lemma checked_output_units (P : N -> bool) (text out : jsstring) :
  forallb (fun n => negb (inert (getSortedKeys m) (N.of_nat n)) || P (N.of_nat n))
          (seq 0 1280) = true ->
  (forall c, (1280 <= c)%N -> P c = true) ->
  transliterate (getSortedKeys m) m text = Returns out ->
  forallb P out = true.
Proof.
  intros Hlow Hhigh Hout. apply checked_output_inert in Hout.
  assert (A : forall c, negb (inert (getSortedKeys m) c) || P c = true).
  { apply UnitwiseFacts.forall_units; [exact Hlow|].
    intros c Hc. rewrite (Hhigh c Hc). apply orb_true_r. }
  rewrite forallb_forall in Hout. apply forallb_forall. intros u Hu.
  specialize (A u). now rewrite (Hout u Hu) in A.
Qed.

(** Units that a property rules out of the keys are inert. *)
Lemma checked_inert_units (P : N -> bool) (text : jsstring) :
  forallb (fun n => P (N.of_nat n) || inert (getSortedKeys m) (N.of_nat n))
          (seq 0 1280) = true ->
  forallb (fun c => negb (P c)) text = true ->
  forallb (inert (getSortedKeys m)) text = true.
Proof.
  intros Hlow Htext. destruct checked_parts as (_ & _ & _ & Hhigh).
  assert (A : forall c, P c || inert (getSortedKeys m) c = true).
  { apply UnitwiseFacts.forall_units; [exact Hlow|].
    intros c Hc. rewrite (UnitwiseFacts.inert_high _ c Hhigh Hc). apply orb_true_r. }
  rewrite forallb_forall in Htext. apply forallb_forall. intros c Hc.
  specialize (A c). specialize (Htext c Hc).
  destruct (P c); [discriminate|exact A].
Qed.

End CheckedIndex.

Ltac high_unit :=
  intros c Hc;
  cbv [ScriptDetector.latinUnit ScriptDetector.cyrillicUnit russianLetter memN existsb];
  repeat match goal with
         | |- context [(?a <=? ?b)%N] =>
             destruct (N.leb_spec a b); try lia; cbn [andb orb negb]
         | |- context [(?a =? ?b)%N] =>
             destruct (N.eqb_spec a b); try lia; cbn [andb orb negb]
         end;
  try reflexivity.









(* ================================================================== *)
(** * Further properties: the indexes and the registry *)
(* ================================================================== *)

Lemma distinct_NoDup (l : list jsstring) : distinct l = true -> NoDup l.
Proof.
  induction l as [|k l IH]; simpl; [constructor|].
  intros E. apply andb_true_iff in E as [E1 E2]. constructor; [|auto].
  intros Hin. apply negb_true_iff in E1.
  assert (existsb (streq k) l = true)
    by (apply existsb_exists; exists k; split; [exact Hin|apply streq_refl]).
  congruence.
Qed.

Lemma NoDup_map_eq (A B : Type) (f : A -> B) (l : list A) (a b : A) :
  NoDup (map f l) -> In a l -> In b l -> f a = f b -> a = b.
Proof.
  induction l as [|x l IH]; simpl; [tauto|].
  intros Hnd Ha Hb E. inversion Hnd as [|? ? Hx Hl]; subst.
  destruct Ha as [->|Ha], Hb as [->|Hb]; trivial.
  - exfalso. apply Hx. rewrite E. now apply in_map.
  - exfalso. apply Hx. rewrite <- E. now apply in_map.
  - auto.
Qed.

Lemma mainLoop_get (table : list CharacterMapping) (key : jsstring) :
  get key (fst (mainLoop table)) = lastFor latin cyrillic key table /\
  get key (snd (mainLoop table)) = lastFor cyrillic latin key table.
Proof.
  unfold mainLoop, lastFor.
  rewrite mainLoop_fst, mainLoop_snd, !get_fold_set. simpl.
  split; destruct (find _ (rev table)); reflexivity.
Qed.

Lemma keys_set (V : Type) (m : Map V) (k : jsstring) (v : V) :
  keys (set k v m) = if has k m then keys m else keys m ++ [k].
Proof.
  unfold has. induction m as [|[k0 v0] m IH]; simpl; [reflexivity|].
  destruct (streq k k0) eqn:E; simpl; [reflexivity|].
  rewrite IH. destruct (get k m); reflexivity.
Qed.

Lemma set_NoDup (V : Type) (m : Map V) (k : jsstring) (v : V) :
  NoDup (keys m) -> NoDup (keys (set k v m)).
Proof.
  intros Hnd. rewrite keys_set. destruct (has k m) eqn:E; [exact Hnd|].
  apply NoDup_app; [exact Hnd| |].
  - constructor; [intros []|constructor].
  - intros x Hx [<-|[]]. apply has_true_iff in Hx. congruence.
Qed.

Lemma fold_set_NoDup (A V : Type) (key : A -> jsstring) (val : A -> V)
      (calls : list A) (acc : Map V) :
  NoDup (keys acc) ->
  NoDup (keys (fold_left (fun m a => set (key a) (val a) m) calls acc)).
Proof.
  revert acc. induction calls as [|a calls IH]; intros acc Hnd; simpl; [exact Hnd|].
  apply IH. now apply set_NoDup.
Qed.

Lemma insertByLength_Permutation k sorted :
  Permutation (insertByLength k sorted) (k :: sorted).
Proof.
  induction sorted as [|k' rest IH]; simpl; [reflexivity|].
  destruct (length k' <=? length k); [reflexivity|].
  rewrite IH. apply perm_swap.
Qed.

Lemma getSortedKeys_Permutation (m : Map jsstring) :
  Permutation (getSortedKeys m) (keys m).
Proof.
  unfold getSortedKeys. induction (keys m) as [|k ks IH]; simpl; [reflexivity|].
  rewrite insertByLength_Permutation. now constructor.
Qed.

Lemma insertByLength_ofLength (n : nat) k sorted :
  longestFirst sorted ->
  filter (fun x => length x =? n) (insertByLength k sorted)
  = filter (fun x => length x =? n) (k :: sorted).
Proof.
  induction 1 as [|k' rest Hle Hrest IH]; [reflexivity|].
  cbn [insertByLength].
  destruct (length k' <=? length k) eqn:E; [reflexivity|].
  apply Nat.leb_gt in E.
  cbn [filter] in *. rewrite IH.
  destruct (length k =? n) eqn:Ek; [|reflexivity].
  apply Nat.eqb_eq in Ek.
  assert ((length k' =? n) = false) as -> by (apply Nat.eqb_neq; lia).
  reflexivity.
Qed.

(** X5.  The reverse index of a main table inverts the forward one: when
    no latin token occurs twice in the table, a value the Cyrillic to Latin
    map gives for a key is mapped back to that key by the Latin to Cyrillic
    map.  Both shipped tables are such; the reverse entries the Uzbek extras
    add have no forward entry, as "ё" with "yo" shows. *)
Theorem reverse_index_inverts_forward :
  (forall (table : list CharacterMapping) (key value : jsstring),
     distinct (map latin table) = true ->
     get key (snd (mainLoop table)) = Some value ->
     get value (fst (mainLoop table)) = Some key) /\
  distinct (map latin LatinCyrillic.LATIN_CYRILLIC_MAP) = true /\
  distinct (map latin Uzbek.UZBEK_LATIN_CYRILLIC_MAP) = true /\
  get (js "ё") Uzbek.cyrillicToLatin = Some (js "yo") /\
  get (js "yo") Uzbek.latinToCyrillic = None.
Proof.
  split; [|repeat split; reflexivity].
  intros table key value Hdistinct Hget.
  apply distinct_NoDup in Hdistinct.
  destruct (mainLoop_get table key) as [_ Hsnd].
  destruct (mainLoop_get table value) as [Hfst _].
  rewrite Hsnd in Hget. rewrite Hfst. unfold lastFor in *.
  destruct (find (fun e => streq key (cyrillic e)) (rev table)) as [e|] eqn:Fe;
    [|discriminate].
  injection Hget as Hlatin.
  apply find_some in Fe as [He Hkey]. apply streq_eq in Hkey.
  destruct (find (fun e' => streq value (latin e')) (rev table)) as [e'|] eqn:Fe'.
  - apply find_some in Fe' as [He' Hvalue]. apply streq_eq in Hvalue.
    apply in_rev in He, He'.
    assert (e' = e)
      by (apply (NoDup_map_eq _ _ latin table); trivial; congruence).
    subst e'. simpl. congruence.
  - apply (find_none _ _ Fe') in He. rewrite <- Hlatin, streq_refl in He.
    discriminate.
Qed.

(** A use of X5 on the generic table: "х" reads as "h", and "h" as "х". *)
Lemma reverse_index_inverts_forward_witness :
  get (js "h") LatinCyrillic.latinToCyrillic = Some (js "х").
Proof.
  apply (proj1 reverse_index_inverts_forward LatinCyrillic.LATIN_CYRILLIC_MAP
           (js "х") (js "h")); reflexivity.
Defined.

(** X6.  [getSortedKeys] sorts: its result is a rearrangement of the map's
    keys, longest first, and keys of one length keep the order they have in
    the map.  The keys of the maps the two [buildLookupMaps] build are
    distinct, so no key is scanned twice. *)
Theorem getSortedKeys_sorts :
  (forall m : Map jsstring,
     Permutation (getSortedKeys m) (keys m) /\
     longestFirst (getSortedKeys m) /\
     forall n, filter (fun k => length k =? n) (getSortedKeys m)
               = filter (fun k => length k =? n) (keys m)) /\
  (forall table : list CharacterMapping,
     NoDup (getSortedKeys (fst (mainLoop table))) /\
     NoDup (getSortedKeys (snd (mainLoop table)))) /\
  NoDup Uzbek.sortedCyrillicKeys.
Proof.
  assert (S : forall m, NoDup (keys m) -> NoDup (getSortedKeys m)).
  { intros m Hnd. apply (Permutation_NoDup (l := keys m)); [|exact Hnd].
    symmetry. apply getSortedKeys_Permutation. }
  split; [|split].
  - intros m. split; [apply getSortedKeys_Permutation|].
    split; [apply getSortedKeys_longestFirst|].
    intros n. unfold getSortedKeys.
    induction (keys m) as [|k ks IH]; [reflexivity|].
    cbn [fold_right]. rewrite insertByLength_ofLength.
    + cbn [filter]. now rewrite IH.
    + clear IH. induction ks; simpl;
        [constructor|now apply insertByLength_longestFirst].
  - intros table. unfold mainLoop. rewrite mainLoop_fst, mainLoop_snd.
    split; apply S, fold_set_NoDup; constructor.
  - apply distinct_NoDup. vm_compute. reflexivity.
Qed.

Lemma keys_registered (calls : list Converter.t) (acc : Map Converter.t) :
  keys (fold_left (fun converters c => registerConverter c converters) calls acc)
  = keys acc ++ newIds (keys acc) (map Converter.id calls).
Proof.
  revert acc. induction calls as [|c calls IH]; intros acc; simpl.
  - now rewrite app_nil_r.
  - rewrite IH. unfold registerConverter. rewrite keys_set. unfold has.
    destruct (existsb (streq (Converter.id c)) (keys acc)) eqn:E.
    + apply existsb_exists in E as (x & Hx & Ex). apply streq_eq in Ex. subst x.
      apply get_In_keys in Hx as [v ->]. reflexivity.
    + destruct (get (Converter.id c) acc) eqn:G.
      * apply get_Some_In_keys in G.
        assert (existsb (streq (Converter.id c)) (keys acc) = true)
          by (apply existsb_exists; eexists; split; [exact G|apply streq_refl]).
        congruence.
      * now rewrite <- app_assoc.
Qed.

(** Every entry of the registry sits under its converter's own id. *)
Lemma registered_entries (calls : list Converter.t) (acc : Map Converter.t) :
  Forall (fun entry => fst entry = Converter.id (snd entry)) acc ->
  Forall (fun entry => fst entry = Converter.id (snd entry))
         (fold_left (fun converters c => registerConverter c converters) calls acc).
Proof.
  revert acc. induction calls as [|c calls IH]; intros acc Hacc; simpl; [exact Hacc|].
  apply IH. unfold registerConverter.
  induction acc as [|[k v] acc IHacc]; simpl.
  - repeat constructor.
  - inversion Hacc as [|? ? Hkv Hrest]; subst. simpl in Hkv.
    destruct (streq (Converter.id c) k) eqn:E.
    + apply streq_eq in E. constructor; [simpl; congruence|exact Hrest].
    + constructor; [exact Hkv|auto].
Qed.

Lemma get_NoDup_entry (V : Type) (m : Map V) (k : jsstring) (v : V) :
  NoDup (keys m) -> In (k, v) m -> get k m = Some v.
Proof.
  induction m as [|[k0 v0] m IH]; simpl; [tauto|].
  intros Hnd [E|Hin].
  - injection E as -> ->. now rewrite streq_refl.
  - inversion Hnd as [|? ? Hk0 Hm]; subst.
    destruct (streq k k0) eqn:E; [|auto].
    apply streq_eq in E. subst k0. exfalso. apply Hk0.
    change k with (fst (k, v)). now apply in_map.
Qed.

(** X7.  [getAllConverters] after any sequence of [registerConverter]
    calls: the ids listed are those of the calls, each once, in the order
    of their first registration, and the converter listed under an id is
    the one registered last under it.  After the four built-in calls the
    list is those four, in their order. *)
Theorem getAllConverters_lists_each_id_once :
  (forall calls : list Converter.t,
     map Converter.id (getAllConverters (registered calls))
     = firstOccurrences (map Converter.id calls) /\
     NoDup (map Converter.id (getAllConverters (registered calls))) /\
     (forall id, In id (map Converter.id (getAllConverters (registered calls)))
                 <-> In id (map Converter.id calls)) /\
     (forall c, In c (getAllConverters (registered calls)) ->
                lastRegistered (Converter.id c) calls = Some c)) /\
  (forall C : CaseConversion,
     getAllConverters (registered builtInCalls) = builtInCalls).
Proof.
  split; [|reflexivity].
  intros calls.
  assert (E : Forall (fun entry => fst entry = Converter.id (snd entry))
                     (registered calls))
    by (apply registered_entries; constructor).
  assert (K : map Converter.id (getAllConverters (registered calls))
              = keys (registered calls)).
  { unfold getAllConverters, values, keys. rewrite map_map.
    apply map_ext_in. intros entry Hin. rewrite Forall_forall in E.
    symmetry. now apply E. }
  assert (Hnd : NoDup (keys (registered calls))).
  { unfold registered, registerConverter.
    apply (fold_set_NoDup _ _ Converter.id (fun c => c)). constructor. }
  rewrite K. split; [|split; [exact Hnd|split]].
  - unfold registered. now rewrite keys_registered.
  - intros id. rewrite <- has_true_iff. unfold has.
    rewrite registered_get. split.
    + destruct (lastRegistered id calls) as [c|] eqn:L; [|discriminate].
      intros _. unfold lastRegistered in L. apply find_some in L as [Hc Hid].
      apply streq_eq in Hid. subst id. apply in_map. now apply in_rev.
    + intros Hin. destruct (lastRegistered id calls) eqn:L; [reflexivity|].
      apply lastRegistered_None in L. contradiction.
  - intros c Hc. unfold getAllConverters, values in Hc.
    apply in_map_iff in Hc as ([k v] & <- & Hin). simpl.
    rewrite Forall_forall in E. pose proof (E _ Hin) as Ek. simpl in Ek. subst k.
    rewrite <- registered_get. now apply get_NoDup_entry.
Qed.

(** A use of X7 on the built-in registry: the converter listed under
    "uz-latn-to-uz-cyrl" is the one registered under it. *)
Lemma getAllConverters_lists_each_id_once_witness :
  lastRegistered (js "uz-latn-to-uz-cyrl") builtInCalls = Some uzbekLatnToCyrl.
Proof.
  apply (proj2 (proj2 (proj2 (proj1 getAllConverters_lists_each_id_once builtInCalls)))
           uzbekLatnToCyrl).
  simpl. tauto.
Defined.

(** X8.  Registering and looking up: after [registerConverter c] the id of
    [c] resolves to [c], is a conversion type, and [convert] runs [c]; every
    other id resolves as before; and the registry grows by one entry when
    the id is new and keeps its size when the id was registered, the
    earlier converter being replaced. *)
Theorem registerConverter_then_getConverter :
  forall (converters : Map Converter.t) (c : Converter.t),
    getConverter (Converter.id c) (registerConverter c converters) = Some c /\
    isConversionType (registerConverter c converters) (Converter.id c) = true /\
    (forall text, convert (registerConverter c converters) text (Converter.id c)
                  = Converter.convert c text) /\
    (forall id, id <> Converter.id c ->
       getConverter id (registerConverter c converters) = getConverter id converters /\
       forall text, convert (registerConverter c converters) text id
                    = convert converters text id) /\
    length (getAllConverters (registerConverter c converters))
    = if isConversionType converters (Converter.id c)
      then length (getAllConverters converters)
      else S (length (getAllConverters converters)).
Proof.
  intros converters c.
  assert (G : getConverter (Converter.id c) (registerConverter c converters) = Some c).
  { unfold getConverter, registerConverter. now rewrite get_set, streq_refl. }
  split; [exact G|]. split; [|split; [|split]].
  - unfold isConversionType, has. unfold getConverter in G. now rewrite G.
  - intros text. unfold convert. unfold getConverter in G. now rewrite G.
  - intros id Hid.
    assert (G' : get id (registerConverter c converters) = get id converters).
    { unfold registerConverter. rewrite get_set.
      apply streq_neq in Hid. now rewrite Hid. }
    split; [exact G'|]. intros text. unfold convert. now rewrite G'.
  - unfold getAllConverters, values. rewrite !length_map.
    rewrite <- (length_map fst (registerConverter c converters)).
    rewrite <- (length_map fst converters).
    change (map fst (registerConverter c converters))
      with (keys (registerConverter c converters)).
    unfold registerConverter. rewrite keys_set. unfold isConversionType.
    destruct (has (Converter.id c) converters); [reflexivity|].
    rewrite length_app. simpl. unfold keys. lia.
Qed.

(** A use of X8: a second converter under a built-in id replaces the first,
    other ids stay, and the registry keeps its four entries. *)
Lemma registerConverter_then_getConverter_witness :
  js "cyrillic-to-latin" <> js "latin-to-cyrillic" /\
  convert (registerConverter
             {| Converter.id := js "latin-to-cyrillic";
                Converter.name := js "identity";
                Converter.convert := Returns |}
             (registered builtInCalls))
          (js "привет") (js "cyrillic-to-latin")
  = convert (registered builtInCalls) (js "привет") (js "cyrillic-to-latin").
Proof.
  assert (N : js "cyrillic-to-latin" <> js "latin-to-cyrillic") by discriminate.
  split; [exact N|].
  apply (proj2 (proj1 (proj2 (proj2 (proj2
           (registerConverter_then_getConverter (registered builtInCalls)
              {| Converter.id := js "latin-to-cyrillic";
                 Converter.name := js "identity";
                 Converter.convert := Returns |}))))
           (js "cyrillic-to-latin") N)).
Defined.

(* ================================================================== *)
(** * Further properties: the script detector *)
(* ================================================================== *)

Module DetectorMore.
Import ScriptDetector ScriptDetectorRest.

Lemma existsb_filter (A : Type) (f : A -> bool) (l : list A) :
  existsb f l = true <-> (0 < N.of_nat (length (filter f l)))%N.
Proof.
  induction l as [|a l IH]; simpl; [split; [discriminate|lia]|].
  destruct (f a); simpl; [split; [lia|reflexivity]|exact IH].
Qed.

Lemma letters_within (text : jsstring) :
  length (filter latinUnit text) + length (filter cyrillicUnit text) <= length text.
Proof.
  induction text as [|c text IH]; simpl; [lia|].
  destruct (latinUnit c) eqn:L.
  - rewrite (DetectorFacts.latin_not_cyrillic c L). simpl. lia.
  - destruct (cyrillicUnit c); simpl; lia.
Qed.

Lemma analyzeScript_fields (text : jsstring) :
  latinCount (analyzeScript text) = latinLetters text /\
  cyrillicCount (analyzeScript text) = cyrillicLetters text /\
  totalLetters (analyzeScript text) = (latinLetters text + cyrillicLetters text)%N /\
  (type (analyzeScript text) = unknown
   <-> (latinLetters text + cyrillicLetters text)%N = 0%N).
Proof.
  unfold analyzeScript. rewrite DetectorFacts.analyzeScript_counts.
  destruct (latinLetters text + cyrillicLetters text =? 0)%N eqn:E.
  - apply N.eqb_eq in E. cbn [latinCount cyrillicCount totalLetters type].
    repeat split; trivial; lia.
  - apply N.eqb_neq in E.
    assert (P : (0 <? latinLetters text + cyrillicLetters text)%N = true)
      by (apply N.ltb_lt; lia).
    rewrite P. cbn [latinCount cyrillicCount totalLetters type].
    repeat split; trivial; try contradiction.
    destruct (PrimFloat.leb 90 _); [discriminate|].
    destruct (PrimFloat.leb 90 _); discriminate.
Qed.

End DetectorMore.

(** X9.  What [analyzeScript] counts, on every text: [latinCount] and
    [cyrillicCount] are the numbers of code units in [A-Za-z] and in
    U+0400..U+04FF, [totalLetters] is their sum and at most the text's
    length, the type is unknown exactly when that sum is zero, and
    [containsLatin] and [containsCyrillic] hold exactly when the
    respective count is positive. *)
Theorem analyzeScript_counts_letters :
  forall text : jsstring,
    let a := ScriptDetector.analyzeScript text in
    ScriptDetector.latinCount a = latinLetters text /\
    ScriptDetector.cyrillicCount a = cyrillicLetters text /\
    ScriptDetector.totalLetters a
    = (ScriptDetector.latinCount a + ScriptDetector.cyrillicCount a)%N /\
    N.to_nat (ScriptDetector.totalLetters a) <= length text /\
    (ScriptDetector.type a = ScriptDetector.unknown
     <-> ScriptDetector.totalLetters a = 0%N) /\
    (ScriptDetectorRest.containsLatin text = true
     <-> (0 < ScriptDetector.latinCount a)%N) /\
    (ScriptDetectorRest.containsCyrillic text = true
     <-> (0 < ScriptDetector.cyrillicCount a)%N).
Proof.
  intros text a. subst a.
  destruct (DetectorMore.analyzeScript_fields text) as (L & Cy & T & U).
  rewrite L, Cy, T. repeat split; trivial.
  - pose proof (DetectorMore.letters_within text).
    unfold latinLetters, cyrillicLetters. lia.
  - apply U.
  - apply U.
  - apply DetectorMore.existsb_filter.
  - apply DetectorMore.existsb_filter.
  - apply DetectorMore.existsb_filter.
  - apply DetectorMore.existsb_filter.
Qed.

(** X10.  [suggestConversion] returns null on a text without Latin and
    Cyrillic letters, and whatever it returns otherwise is one of the two
    generic ids, registered among the built-in converters, so that
    [convert] with the suggestion returns a string. *)
Theorem suggestConversion_is_convertible :
  forall (C : CaseConversion) (text : jsstring),
    (ScriptDetectorRest.containsLatin text = false ->
     ScriptDetectorRest.containsCyrillic text = false ->
     ScriptDetector.suggestConversion text = None) /\
    (forall id, ScriptDetector.suggestConversion text = Some id ->
       (id = js "latin-to-cyrillic" \/ id = js "cyrillic-to-latin") /\
       isConversionType (registered builtInCalls) id = true /\
       exists out, convert (registered builtInCalls) text id = Returns out).
Proof.
  intros C text. split.
  - intros HL HC. unfold ScriptDetector.suggestConversion.
    destruct (DetectorMore.analyzeScript_fields text) as (_ & _ & _ & U).
    assert (Z : (latinLetters text + cyrillicLetters text)%N = 0%N).
    { destruct (N.eq_dec (latinLetters text) 0) as [E1|E1],
               (N.eq_dec (cyrillicLetters text) 0) as [E2|E2]; try lia.
      - assert (ScriptDetectorRest.containsCyrillic text = true)
          by (apply DetectorMore.existsb_filter; unfold cyrillicLetters in E2; lia).
        congruence.
      - assert (ScriptDetectorRest.containsLatin text = true)
          by (apply DetectorMore.existsb_filter; unfold latinLetters in E1; lia).
        congruence.
      - assert (ScriptDetectorRest.containsLatin text = true)
          by (apply DetectorMore.existsb_filter; unfold latinLetters in E1; lia).
        congruence. }
    apply U in Z. now rewrite Z.
  - intros id. unfold ScriptDetector.suggestConversion.
    destruct (builtIn_returns text) as (R1 & R2 & _).
    destruct (ScriptDetector.type (ScriptDetector.analyzeScript text));
      intros [= <-].
    + split; [now left|]. split; [reflexivity|exact R1].
    + split; [now right|]. split; [reflexivity|exact R2].
Qed.

(** A use of X10: a text of digits has no letter and gets no suggestion. *)
Lemma suggestConversion_is_convertible_witness :
  ScriptDetector.suggestConversion (js "12345") = None.
Proof.
  apply (proj1 (suggestConversion_is_convertible caseConversion (js "12345")));
    reflexivity.
Defined.

(* ================================================================== *)
(** * Further properties: translation actions, menus and the popup *)
(* ================================================================== *)

Lemma startsWith_app (prefix rest : jsstring) : startsWith prefix (prefix ++ rest) = true.
Proof.
  unfold startsWith. rewrite firstn_app, Nat.sub_diag, firstn_all, firstn_O, app_nil_r.
  apply streq_refl.
Qed.

Lemma startsWith_split (prefix s : jsstring) :
  startsWith prefix s = true -> s = prefix ++ skipn (length prefix) s.
Proof.
  unfold startsWith. intros E. apply streq_eq in E.
  rewrite <- E at 1. symmetry. apply firstn_skipn.
Qed.

Lemma startsWith_cons (a x : N) (prefix s : jsstring) :
  startsWith (a :: prefix) (x :: s) = (x =? a)%N && startsWith prefix s.
Proof. reflexivity. Qed.

Lemma includes_skipn (needle s : jsstring) :
  includes needle s = false -> forall q, startsWith needle (skipn q s) = false.
Proof.
  induction s as [|c s IH]; intros Hinc q.
  - simpl in Hinc. rewrite orb_false_r in Hinc. now rewrite skipn_nil.
  - simpl in Hinc. apply orb_false_iff in Hinc as [H0 Hrest].
    destruct q as [|q]; [exact H0|]. simpl. now apply IH.
Qed.

Lemma splitAt_parts (k : nat) (rest group1 group2 : jsstring) :
  splitAt k rest = Some (group1, group2) ->
  rest = group1 ++ js "-to-" ++ group2 /\
  group1 <> [] /\ group2 <> [] /\
  forallb dot group1 = true /\ forallb dot group2 = true.
Proof.
  unfold splitAt. cbv zeta.
  destruct (_ && _) eqn:E; [|discriminate]. intros [= <- <-].
  apply andb_true_iff in E as [E E5]. apply andb_true_iff in E as [E E4].
  apply andb_true_iff in E as [E E3]. apply andb_true_iff in E as [E1 E2].
  apply startsWith_split in E3. change (length (js "-to-")) with 4 in E3.
  split.
  { transitivity (firstn k rest ++ skipn k rest);
      [symmetry; apply firstn_skipn|f_equal; exact E3]. }
  repeat split; trivial.
  - intros Z. rewrite Z in E1. discriminate.
  - intros Z. assert (Z' : skipn 4 (skipn k rest) = []) by exact Z.
    rewrite Z' in E4. discriminate.
Qed.

Lemma backtrack_found (k : nat) (rest : jsstring) (groups : jsstring * jsstring) :
  backtrack k rest = Some groups -> exists k', splitAt k' rest = Some groups.
Proof.
  induction k as [|k IH]; cbn [backtrack].
  - destruct (splitAt 0 rest) as [g|] eqn:E; [|discriminate].
    intros Hg. exists 0. congruence.
  - destruct (splitAt (S k) rest) as [g|] eqn:E; [|exact IH].
    intros Hg. exists (S k). congruence.
Qed.

Lemma backtrack_down (rest : jsstring) (k0 : nat) (groups : jsstring * jsstring) :
  splitAt k0 rest = Some groups ->
  forall k, k0 <= k ->
  (forall k', k0 < k' <= k -> splitAt k' rest = None) ->
  backtrack k rest = Some groups.
Proof.
  intros Hk0. induction k as [|k IH]; intros Hle Hnone.
  - assert (k0 = 0) by lia. subst. cbn [backtrack]. now rewrite Hk0.
  - destruct (Nat.eq_dec k0 (S k)) as [->|Hne].
    + cbn [backtrack]. now rewrite Hk0.
    + cbn [backtrack]. rewrite (Hnone (S k)) by lia. apply IH; [lia|].
      intros k' Hk'. apply Hnone. lia.
Qed.

(** X11.  [parseTranslationAction] and the action string.  What it returns
    reassembles to the action: a result [(source, target)] means the action
    is "translate-" + source + "-to-" + target, with both parts non-empty,
    and [isTranslationType] holds of it.  Conversely an action built that
    way from non-empty parts without line terminators parses back to them
    when "to-" does not occur in the target; the first group being greedy,
    "translate-a-to-to-b" reads as "a-to" and "b". *)
Theorem parseTranslationAction_round_trip :
  (forall action source target : jsstring,
     parseTranslationAction action = Some (source, target) ->
     action = js "translate-" ++ source ++ js "-to-" ++ target /\
     source <> [] /\ target <> [] /\
     isTranslationType action = true) /\
  (forall source target : jsstring,
     source <> [] -> target <> [] ->
     forallb dot source = true -> forallb dot target = true ->
     includes (js "to-") target = false ->
     parseTranslationAction (js "translate-" ++ source ++ js "-to-" ++ target)
     = Some (source, target)) /\
  parseTranslationAction (js "translate-a-to-to-b") = Some (js "a-to", js "b").
Proof.
  split; [|split; [|reflexivity]].
  - intros action source target. unfold parseTranslationAction, translateRegExp.
    destruct (startsWith (js "translate-") action) eqn:P; [|discriminate].
    intros Hback. apply backtrack_found in Hback as [k Hsplit].
    apply splitAt_parts in Hsplit as (Hrest & H1 & H2 & _).
    apply startsWith_split in P. rewrite Hrest in P.
    repeat split; trivial.
    rewrite P. apply startsWith_app.
  - intros source target Hs Ht Ds Dt Hinc.
    unfold parseTranslationAction, translateRegExp.
    rewrite startsWith_app, skipn_app, Nat.sub_diag, skipn_all. cbn [app skipn].
    set (rest := source ++ js "-to-" ++ target).
    assert (Hat : splitAt (length source) rest = Some (source, target)).
    { unfold splitAt, rest. cbv zeta.
      rewrite firstn_app, Nat.sub_diag, firstn_all, firstn_O, app_nil_r.
      rewrite skipn_app, Nat.sub_diag, skipn_all, skipn_0. cbn [app].
      rewrite startsWith_app.
      change (skipn 4 (js "-to-" ++ target)) with target.
      rewrite Ds, Dt.
      destruct source; [contradiction|]. destruct target; [contradiction|].
      reflexivity. }
    apply (backtrack_down rest (length source) _ Hat).
    + unfold rest. rewrite length_app. lia.
    + intros k' [Hlt _]. unfold splitAt.
      assert (T : startsWith (js "-to-") (skipn k' rest) = false).
      { unfold rest. rewrite skipn_app.
        rewrite skipn_all2 by lia. cbn [app].
        remember (k' - length source) as j eqn:Hj.
        destruct j as [|[|[|[|j]]]]; try lia; try reflexivity.
        - change (skipn 3 (js "-to-" ++ target)) with (45%N :: target).
          change (js "-to-") with (45%N :: js "to-").
          rewrite startsWith_cons. apply (includes_skipn _ _ Hinc 0).
        - change (skipn (S (S (S (S j)))) (js "-to-" ++ target)) with (skipn j target).
          destruct (skipn j target) as [|x tail] eqn:Hskip; [reflexivity|].
          change (js "-to-") with (45%N :: js "to-").
          rewrite startsWith_cons.
          replace tail with (skipn (S j) target).
          + rewrite (includes_skipn _ _ Hinc (S j)). apply andb_false_r.
          + rewrite <- (skipn_skipn 1 j), Hskip. reflexivity. }
      rewrite T. now rewrite !andb_false_r.
Qed.

(** A use of X11 with the codes of two languages. *)
Lemma parseTranslationAction_round_trip_witness :
  parseTranslationAction (js "translate-" ++ js "uz-latn" ++ js "-to-" ++ js "en")
  = Some (js "uz-latn", js "en").
Proof.
  apply (proj1 (proj2 parseTranslationAction_round_trip));
    try discriminate; reflexivity.
Defined.

(** X12.  The menus and what a click does.  Every item of
    [CONVERSION_MENU_ITEMS] is routed to the conversion handler with its own
    id, which [convert] accepts on every text.  The items of
    [getTranslationMenuItems] are the ten pairs of distinct languages other
    than the two Uzbek scripts; the id of each parses back to the codes of
    its pair, a click on it is routed to the translation handler with those
    codes, and it is no conversion type. *)
Theorem menu_items_are_routed :
  (forall item, In item CONVERSION_MENU_ITEMS ->
     In (menuId item) CONVERSION_TYPES /\
     onClicked (menuId item) = HandleConversion (menuId item) /\
     forall (C : CaseConversion) (text : jsstring),
       exists out, convert (registered builtInCalls) text (menuId item) = Returns out) /\
  (forall item, In item getTranslationMenuItems <->
     exists source target,
       In source LANGUAGES /\ In target LANGUAGES /\
       translatable source target = true /\
       item = translationItem source target) /\
  (forall source target,
     In source LANGUAGES -> In target LANGUAGES ->
     translatable source target = true ->
     parseTranslationAction (menuId (translationItem source target))
     = Some (code source, code target) /\
     onClicked (menuId (translationItem source target))
     = HandleTranslation (code source) (code target) /\
     forall C : CaseConversion,
       isConversionType (registered builtInCalls)
                        (menuId (translationItem source target)) = false) /\
  length getTranslationMenuItems = 10.
Proof.
  split; [|split; [|split; [|reflexivity]]].
  - intros item Hin. simpl in Hin.
    destruct Hin as [<-|[<-|[<-|[<-|[]]]]];
      (split; [vm_compute; tauto|]); (split; [reflexivity|]);
      intros C text; destruct (builtIn_returns text) as (R1 & R2 & R3 & R4).
    + exact R1.
    + exact R2.
    + exact R3.
    + exact R4.
  - intros item. unfold getTranslationMenuItems. rewrite in_flat_map. split.
    + intros (source & Hs & Hin). apply in_flat_map in Hin as (target & Ht & Hin).
      destruct (translatable source target) eqn:T; [|destruct Hin].
      destruct Hin as [<-|[]]. exists source, target. auto.
    + intros (source & target & Hs & Ht & T & ->).
      exists source. split; [exact Hs|]. apply in_flat_map.
      exists target. split; [exact Ht|]. rewrite T. now left.
  - intros source target Hs Ht. simpl in Hs, Ht.
    destruct Hs as [<-|[<-|[<-|[<-|[]]]]], Ht as [<-|[<-|[<-|[<-|[]]]]];
      intros T; try discriminate T;
      (split; [reflexivity|split; [reflexivity|intros C; reflexivity]]).
Qed.

(** A use of X12 on the pair Russian, Uzbek (Latin). *)
Lemma menu_items_are_routed_witness :
  onClicked (js "translate-ru-to-uz-latn") = HandleTranslation (js "ru") (js "uz-latn").
Proof.
  apply (proj1 (proj2 (proj1 (proj2 (proj2 menu_items_are_routed))
           {| code := js "ru"; languageName := js "Russian";
              nativeName := js "Русский"; languageScript := cyrillicAlphabet |}
           {| code := js "uz-latn"; languageName := js "Uzbek (Latin)";
              nativeName := js "O'zbek"; languageScript := latinAlphabet |}
           (or_intror (or_introl eq_refl))
           (or_intror (or_intror (or_introl eq_refl)))
           eq_refl))).
Defined.

(** X13.  The two lists of the popup's [renderMappings]: no entry is in
    both, and an entry of the table is in neither exactly when its latin
    token is empty, or has one unit while its cyrillic token has not.  Of
    the generic table that leaves out one entry, "x" with "кс"; of the
    Uzbek table none. *)
Theorem renderMappings_lists :
  (forall mappings e,
     In e (singleCharMappings mappings) -> ~ In e (digraphs mappings)) /\
  (forall mappings e,
     In e mappings ->
     (In e (singleCharMappings mappings) \/ In e (digraphs mappings)
      <-> ~ In e (notRendered mappings))) /\
  (forall mappings e,
     In e (notRendered mappings) <->
     In e mappings /\
     (latin e = [] \/ (length (latin e) = 1 /\ length (cyrillic e) <> 1))) /\
  notRendered LatinCyrillic.LATIN_CYRILLIC_MAP = [entry "x" "кс"] /\
  notRendered Uzbek.UZBEK_LATIN_CYRILLIC_MAP = [].
Proof.
  unfold singleCharMappings, digraphs, notRendered.
  split; [|split; [|split; [|split; reflexivity]]].
  - intros mappings e H1 H2. apply filter_In in H1 as [_ H1], H2 as [_ H2].
    apply andb_true_iff in H1 as [H1 _].
    apply Nat.eqb_eq in H1. rewrite H1 in H2. discriminate.
  - intros mappings e Hin. rewrite !filter_In.
    destruct (length (latin e) =? 1) eqn:E1, (length (cyrillic e) =? 1) eqn:E2,
             (1 <? length (latin e)) eqn:E3; simpl; intuition discriminate.
  - intros mappings e. rewrite filter_In.
    destruct (latin e) as [|a [|b l]]; simpl.
    + intuition discriminate.
    + destruct (length (cyrillic e) =? 1) eqn:E2; simpl.
      * apply Nat.eqb_eq in E2. intuition (try discriminate; try lia).
      * apply Nat.eqb_neq in E2. intuition.
    + intuition (try discriminate; try lia).
Qed.

(* ================================================================== *)
(** * Further properties: words are converted on their own *)
(* ================================================================== *)

Module SeparatorFacts.

Section Separator.
Variables (ks : list jsstring) (m : Map jsstring) (sep : N).
Hypothesis WF : wellFormed ks m.
Hypothesis Hsep : separator ks sep = true.

Lemma separator_not_in_key (k : jsstring) : In k ks -> ~ In (lowerUnit sep) k.
Proof.
  intros Hk Hin. unfold separator in Hsep. apply negb_true_iff in Hsep.
  assert (memN (lowerUnit sep) (concat ks) = true)
    by (apply UnitwiseFacts.memN_In, in_concat; eauto).
  congruence.
Qed.

(** No key matches a chunk that holds the separator or is cut short. *)
Lemma forKeys_before_separator (keys' : list jsstring) (a b : jsstring) :
  (forall k, In k keys' -> In k ks) ->
  forKeys keys' (a ++ sep :: b) 0 = forKeys keys' a 0.
Proof.
  induction keys' as [|k keys' IH]; intros Hsub; [reflexivity|].
  cbn [forKeys]. rewrite !substring_0.
  rewrite IH by (intros; apply Hsub; now right).
  destruct (Nat.le_gt_cases (length k) (length a)) as [Hle|Hgt].
  - now rewrite firstn_app, (proj2 (Nat.sub_0_le _ _) Hle), firstn_O, app_nil_r.
  - assert (E1 : streq (toLowerCase (firstn (length k) (a ++ sep :: b))) k = false).
    { apply streq_neq. intros E.
      apply (separator_not_in_key k (Hsub k (or_introl eq_refl))).
      rewrite <- E. change (toLowerCase ?x) with (map lowerUnit x).
      apply in_map. rewrite firstn_app. apply in_or_app. right.
      destruct (length k - length a) as [|j] eqn:J; [lia|]. now left. }
    assert (E2 : streq (toLowerCase (firstn (length k) a)) k = false).
    { apply streq_neq. intros E. apply (f_equal (@length N)) in E.
      change (toLowerCase ?x) with (map lowerUnit x) in E.
      rewrite length_map, length_firstn in E. lia. }
    now rewrite E1, E2.
Qed.

Lemma separator_step (b result : jsstring) :
  loopBody ks m (sep :: b) 0 result = Next 1 (result ++ [sep]).
Proof.
  unfold loopBody.
  destruct (forKeys ks (sep :: b) 0) as [[key chunk]|] eqn:E; [exfalso|reflexivity].
  apply forKeys_Some in E as (Hin & Hchunk & Hlow).
  apply (separator_not_in_key key Hin).
  destruct (WF key Hin) as [Hne _].
  rewrite <- Hlow, Hchunk, substring_0.
  destruct key as [|u key]; [contradiction|]. now left.
Qed.

Lemma step_before_separator (c : N) (a b : jsstring) (d : nat) (r : jsstring) :
  loopBody ks m (c :: a) 0 [] = Next d r ->
  loopBody ks m ((c :: a) ++ sep :: b) 0 [] = Next d r /\ 1 <= d <= length (c :: a).
Proof.
  intros Hbody. split.
  - unfold loopBody in *. now rewrite forKeys_before_separator.
  - unfold loopBody in Hbody.
    destruct (forKeys ks (c :: a) 0) as [[key chunk]|] eqn:E.
    + apply forKeys_Some in E as (Hin & Hchunk & Hlow).
      destruct (WF key Hin) as [Hne Hkeys].
      apply get_In_keys in Hkeys as [v Hv]. rewrite Hv in Hbody.
      injection Hbody as <- _. cbn [Nat.add].
      split; [destruct key; [contradiction|simpl; lia]|].
      apply (f_equal (@length N)) in Hlow.
      change (toLowerCase chunk) with (map lowerUnit chunk) in Hlow.
      rewrite length_map, Hchunk, substring_0, length_firstn in Hlow. lia.
    + cbn [index nth_error] in Hbody. injection Hbody as <- _. simpl. lia.
Qed.

Lemma runs_around_separator (n : nat) :
  forall a, length a <= n ->
  forall b out1 out2,
  runs ks m a out1 -> runs ks m b out2 ->
  runs ks m (a ++ sep :: b) (out1 ++ sep :: out2).
Proof.
  induction n as [|n IH]; intros a Hlen b out1 out2 H1 H2.
  - destruct a; [|simpl in Hlen; lia].
    apply runs_nil in H1. subst out1.
    apply (runs_step ks m (sep :: b) 1 [sep]); [discriminate| |exact H2].
    apply (separator_step b []).
  - destruct a as [|c a].
    + apply runs_nil in H1. subst out1.
      apply (runs_step ks m (sep :: b) 1 [sep]); [discriminate| |exact H2].
      apply (separator_step b []).
    + apply runs_inv in H1 as (d & r & out' & Hbody & Hrest & ->); [|discriminate].
      destruct (step_before_separator c a b d r Hbody) as (Hbody' & Hd1 & Hd2).
      rewrite <- app_assoc.
      apply (runs_step ks m ((c :: a) ++ sep :: b) d r);
        [discriminate|exact Hbody'|].
      rewrite skipn_app.
      replace (d - length (c :: a)) with 0 by lia.
      cbn [skipn]. apply IH; trivial.
      rewrite length_skipn. cbn [length] in Hlen, Hd2 |- *. lia.
Qed.

Lemma transliterate_around_separator (a b out1 out2 : jsstring) :
  transliterate ks m a = Returns out1 ->
  transliterate ks m b = Returns out2 ->
  transliterate ks m (a ++ sep :: b) = Returns (out1 ++ sep :: out2).
Proof.
  intros H1 H2.
  apply (transliterate_runs _ _ _ _ WF) in H1, H2.
  apply (transliterate_runs _ _ _ _ WF).
  now apply (runs_around_separator (length a)).
Qed.

End Separator.

(** The units of the keys of the four indexes. *)
Lemma separators :
  (forall c, (ScriptDetector.latinUnit c || (c =? 39)%N || (c =? 34)%N) = false ->
     separator LatinCyrillic.sortedLatinKeys c = true /\
     separator Uzbek.sortedLatinKeys c = true) /\
  (forall c, ScriptDetector.cyrillicUnit c = false ->
     separator LatinCyrillic.sortedCyrillicKeys c = true /\
     separator Uzbek.sortedCyrillicKeys c = true).
Proof.
  assert (A : forall (P : N -> bool) ks,
             forallb (fun u => (u <? 1280)%N) (concat ks) = true ->
             forallb (fun n => P (N.of_nat n) || separator ks (N.of_nat n))
                     (seq 0 1280) = true ->
             forall c, P c = false -> separator ks c = true).
  { intros P ks Hhigh Hlow c Hc.
    assert (F : forall c, P c || separator ks c = true).
    { apply UnitwiseFacts.forall_units; [exact Hlow|].
      intros c' Hc'. unfold separator.
      rewrite (UnitwiseFacts.lowerUnit_high c' Hc'),
              (UnitwiseFacts.memN_high _ c' Hhigh Hc').
      apply orb_true_r. }
    specialize (F c). now rewrite Hc in F. }
  split; intros c Hc; split.
  - apply (A (fun c => ScriptDetector.latinUnit c || (c =? 39)%N || (c =? 34)%N));
      [vm_compute; reflexivity|vm_compute; reflexivity|exact Hc].
  - apply (A (fun c => ScriptDetector.latinUnit c || (c =? 39)%N || (c =? 34)%N));
      [vm_compute; reflexivity|vm_compute; reflexivity|exact Hc].
  - apply (A ScriptDetector.cyrillicUnit);
      [vm_compute; reflexivity|vm_compute; reflexivity|exact Hc].
  - apply (A ScriptDetector.cyrillicUnit);
      [vm_compute; reflexivity|vm_compute; reflexivity|exact Hc].
Qed.

End SeparatorFacts.



(* ================================================================== *)
(** * Further properties: upper-casing the text *)
(* ================================================================== *)

Module UpperFacts.

Lemma lower_upper (c : N) : lowerUnit (upperUnit c) = lowerUnit c.
Proof.
  apply N.eqb_eq.
  apply (UnitwiseFacts.forall_units (fun c => (lowerUnit (upperUnit c) =? lowerUnit c)%N));
    [vm_compute; reflexivity|].
  intros c' Hc'. rewrite (UnitwiseFacts.upperUnit_high c' Hc'). apply N.eqb_refl.
Qed.

Lemma upper_upper (c : N) : upperUnit (upperUnit c) = upperUnit c.
Proof.
  apply N.eqb_eq.
  apply (UnitwiseFacts.forall_units (fun c => (upperUnit (upperUnit c) =? upperUnit c)%N));
    [vm_compute; reflexivity|].
  intros c' Hc'. rewrite !(UnitwiseFacts.upperUnit_high c' Hc'). apply N.eqb_refl.
Qed.

Lemma map_lower_upper (s : jsstring) :
  map lowerUnit (map upperUnit s) = map lowerUnit s.
Proof. rewrite map_map. apply map_ext. exact lower_upper. Qed.

Lemma map_upper_upper (s : jsstring) :
  map upperUnit (map upperUnit s) = map upperUnit s.
Proof. rewrite map_map. apply map_ext. exact upper_upper. Qed.

Lemma upper_matchCase (chunk target : jsstring) :
  map upperUnit (matchCase chunk target) = map upperUnit target.
Proof.
  unfold matchCase.
  destruct ((length chunk =? 0) || (length target =? 0)); [reflexivity|].
  destruct (streq chunk (toUpperCase chunk) && negb (streq chunk (toLowerCase chunk))).
  - apply map_upper_upper.
  - destruct chunk as [|c chunk], target as [|t target]; cbn [index nth_error];
      try reflexivity.
    destruct (isUpperCase [c]); [|reflexivity].
    cbn. now rewrite upper_upper.
Qed.

Lemma matchCase_all_upper (chunk target : jsstring) :
  chunk <> [] ->
  map upperUnit chunk <> map lowerUnit chunk ->
  matchCase (map upperUnit chunk) target = map upperUnit target.
Proof.
  intros Hne Hcased. unfold matchCase.
  destruct chunk as [|c chunk]; [contradiction|].
  destruct target as [|t target]; [reflexivity|].
  cbn [length map Nat.eqb orb].
  change (toUpperCase ?x) with (map upperUnit x).
  change (toLowerCase ?x) with (map lowerUnit x).
  change (upperUnit c :: map upperUnit chunk) with (map upperUnit (c :: chunk)).
  rewrite map_upper_upper, streq_refl, map_lower_upper.
  apply streq_neq in Hcased. now rewrite Hcased.
Qed.

Section Upper.
Variables (ks : list jsstring) (m : Map jsstring) (allowed : N -> bool).
Hypothesis WF : wellFormed ks m.
Hypothesis Hcased : casedStarts ks allowed = true.

Lemma forKeys_upper (keys' : list jsstring) (text : jsstring) :
  forKeys keys' (map upperUnit text) 0
  = match forKeys keys' text 0 with
    | Some (key, chunk) => Some (key, map upperUnit chunk)
    | None => None
    end.
Proof.
  induction keys' as [|k keys' IH]; [reflexivity|].
  cbn [forKeys]. rewrite !substring_0, firstn_map.
  change (toLowerCase ?x) with (map lowerUnit x).
  rewrite map_lower_upper, IH.
  destruct (streq (map lowerUnit (firstn (length k) text)) k); reflexivity.
Qed.

Lemma allowed_start_cased (c : N) :
  allowed c = true -> In (lowerUnit c) (firstUnits ks) -> upperUnit c <> lowerUnit c.
Proof.
  intros Hc Hin. unfold casedStarts in Hcased.
  apply andb_true_iff in Hcased as [Hlow Hhigh].
  assert (F : forall c, (negb (allowed c)
                         || negb (memN (lowerUnit c) (firstUnits ks))
                         || negb (upperUnit c =? lowerUnit c)%N) = true).
  { apply UnitwiseFacts.forall_units; [exact Hlow|].
    intros c' Hc'. rewrite (UnitwiseFacts.lowerUnit_high c' Hc').
    rewrite (UnitwiseFacts.memN_high _ c' Hhigh Hc'). cbn.
    now rewrite orb_true_r. }
  specialize (F c). rewrite Hc in F.
  apply UnitwiseFacts.memN_In in Hin. rewrite Hin in F. cbn in F.
  apply negb_true_iff, N.eqb_neq in F. exact F.
Qed.

Lemma upper_step (c : N) (text : jsstring) (d : nat) (r : jsstring) :
  allowed c = true ->
  loopBody ks m (c :: text) 0 [] = Next d r ->
  loopBody ks m (map upperUnit (c :: text)) 0 [] = Next d (map upperUnit r) /\ 1 <= d.
Proof.
  intros Hc. unfold loopBody. rewrite forKeys_upper.
  destruct (forKeys ks (c :: text) 0) as [[key chunk]|] eqn:E.
  - apply forKeys_Some in E as (Hin & Hchunk & Hlow).
    destruct (WF key Hin) as [Hne Hkeys].
    apply get_In_keys in Hkeys as [target Hget]. rewrite Hget.
    intros [= <- <-]. cbn [app].
    split; [|destruct key; [contradiction|simpl; lia]].
    rewrite upper_matchCase. f_equal.
    change (toLowerCase chunk) with (map lowerUnit chunk) in Hlow.
    rewrite substring_0 in Hchunk.
    destruct key as [|u key]; [contradiction|].
    cbn [length firstn] in Hchunk. subst chunk.
    apply matchCase_all_upper; [discriminate|].
    cbn [map] in *. injection Hlow as Hu _. intros E. injection E as E _.
    apply (allowed_start_cased c Hc); [|exact E].
    rewrite Hu. unfold firstUnits. apply in_flat_map.
    exists (u :: key). split; [exact Hin|now left].
  - cbn [map index nth_error app]. intros [= <- <-]. split; [reflexivity|lia].
Qed.

Lemma runs_upper (n : nat) :
  forall text, length text <= n ->
  forall out, forallb allowed text = true ->
  runs ks m text out -> runs ks m (map upperUnit text) (map upperUnit out).
Proof.
  induction n as [|n IH]; intros text Hlen out Hall Hrun.
  - destruct text; [|simpl in Hlen; lia].
    apply runs_nil in Hrun. subst out. now apply runs_nil.
  - destruct text as [|c text].
    + apply runs_nil in Hrun. subst out. now apply runs_nil.
    + apply runs_inv in Hrun as (d & r & out' & Hbody & Hrest & ->); [|discriminate].
      pose proof Hall as Hall'. cbn [forallb] in Hall'.
      apply andb_true_iff in Hall' as [Hc _].
      destruct (upper_step c text d r Hc Hbody) as [Hbody' Hd].
      rewrite map_app.
      apply (runs_step ks m (map upperUnit (c :: text)) d (map upperUnit r));
        [discriminate|exact Hbody'|].
      rewrite skipn_map. apply IH; trivial.
      * rewrite length_skipn. cbn [length] in Hlen |- *. lia.
      * rewrite forallb_forall in *. intros x Hx. apply Hall.
        rewrite <- (firstn_skipn d (c :: text)). apply in_or_app. now right.
Qed.

Lemma transliterate_upper (text out : jsstring) :
  forallb allowed text = true ->
  transliterate ks m text = Returns out ->
  transliterate ks m (map upperUnit text) = Returns (map upperUnit out).
Proof.
  intros Hall Hout.
  apply (transliterate_runs _ _ _ _ WF) in Hout.
  apply (transliterate_runs _ _ _ _ WF).
  now apply (runs_upper (length text)).
Qed.

End Upper.

End UpperFacts.



(** A use of X13: "x" with "кс" is in the generic table and in neither
    list. *)
Lemma renderMappings_lists_witness :
  In (entry "x" "кс") LatinCyrillic.LATIN_CYRILLIC_MAP /\
  In (entry "x" "кс") (notRendered LatinCyrillic.LATIN_CYRILLIC_MAP).
Proof.
  assert (I : In (entry "x" "кс") LatinCyrillic.LATIN_CYRILLIC_MAP).
  { unfold LatinCyrillic.LATIN_CYRILLIC_MAP.
    do 36 (apply in_cons). now left. }
  split; [exact I|].
  apply (proj2 (proj1 (proj2 (proj2 renderMappings_lists))
                  LatinCyrillic.LATIN_CYRILLIC_MAP (entry "x" "кс"))).
  split; [exact I|]. right. split; [reflexivity|discriminate].
Defined.

(* ================================================================== *)
(** * Further properties: Uzbek Latin, to Cyrillic and back *)
(* ================================================================== *)

Module UzbekRoundTrip.

Abbreviation KL := Uzbek.sortedLatinKeys.
Abbreviation ML := Uzbek.latinToCyrillic.
Abbreviation KC := Uzbek.sortedCyrillicKeys.
Abbreviation MC := Uzbek.cyrillicToLatin.

Lemma wellFormed_latin : wellFormed KL ML.
Proof. apply wellFormed_getSortedKeys. vm_compute. reflexivity. Qed.

Lemma lowerOnly_fixed (c : N) : lowerOnly c = true -> lowerUnit c = c.
Proof.
  intros Hc.
  assert (F : forall c, negb (lowerOnly c) || (lowerUnit c =? c)%N = true).
  { apply UnitwiseFacts.forall_units; [vm_compute; reflexivity|].
    intros c' Hc'. rewrite (UnitwiseFacts.lowerUnit_high c' Hc'), N.eqb_refl.
    apply orb_true_r. }
  specialize (F c). rewrite Hc in F. now apply N.eqb_eq.
Qed.

Lemma lowerOnly_not_cyrillic (c : N) :
  lowerOnly c = true -> ScriptDetector.cyrillicUnit c = false.
Proof.
  unfold lowerOnly. intros H. apply andb_true_iff in H as [H _].
  now apply negb_true_iff.
Qed.

Lemma matchCase_lower (chunk target : jsstring) :
  map lowerUnit chunk = chunk -> matchCase chunk target = target.
Proof.
  intros Hlow. unfold matchCase.
  destruct ((length chunk =? 0) || (length target =? 0)); [reflexivity|].
  change (toLowerCase chunk) with (map lowerUnit chunk).
  rewrite Hlow, streq_refl, andb_false_r.
  destruct chunk as [|c chunk], target as [|t target]; cbn [index nth_error];
    try reflexivity.
  unfold isUpperCase. change (toLowerCase [c]) with (map lowerUnit [c]).
  cbn [map] in *. injection Hlow as -> _. now rewrite streq_refl.
Qed.

Lemma foundAs_true (found : option (jsstring * jsstring)) (k : jsstring) :
  foundAs found k = true -> found = Some (k, k).
Proof.
  destruct found as [[key chunk]|]; [|discriminate]. cbn [foundAs].
  intros H. apply andb_true_iff in H as [Ek Ec].
  apply streq_eq in Ek, Ec. now subst.
Qed.

Lemma valueIs_true (value : option jsstring) (v : jsstring) :
  valueIs value v = true -> value = Some v.
Proof.
  destruct value as [v'|]; [|discriminate]. cbn [valueIs].
  intros H. apply streq_eq in H. now subst.
Qed.

Lemma entries_checked : forallb uzbekEntryCheck ML = true.
Proof. vm_compute. reflexivity. Qed.

Lemma entry_checked (key target : jsstring) :
  In (key, target) ML -> uzbekEntryCheck (key, target) = true.
Proof.
  intros Hin. pose proof entries_checked as E.
  rewrite forallb_forall in E. exact (E _ Hin).
Qed.

(** One iteration of the Latin to Cyrillic loop on lower-case text. *)
Lemma latin_step (c : N) (t : jsstring) (d : nat) (r : jsstring) :
  forallb lowerOnly (c :: t) = true ->
  loopBody KL ML (c :: t) 0 [] = Next d r ->
  (forKeys KL (c :: t) 0 = None /\ d = 1 /\ r = [c]) \/
  (exists key target,
     forKeys KL (c :: t) 0 = Some (key, key) /\ In (key, target) ML /\
     firstn d (c :: t) = key /\ 1 <= d <= length (c :: t) /\ r = target).
Proof.
  intros Hok. unfold loopBody.
  destruct (forKeys KL (c :: t) 0) as [[key chunk]|] eqn:E.
  - pose proof E as E'. apply forKeys_Some in E' as (Hin & Hchunk & Hlow).
    destruct (wellFormed_latin key Hin) as [Hne Hkeys].
    apply get_In_keys in Hkeys as [target Hget]. rewrite Hget.
    intros [= <- <-]. right.
    rewrite substring_0 in Hchunk.
    change (toLowerCase chunk) with (map lowerUnit chunk) in Hlow.
    assert (Hfix : map lowerUnit chunk = chunk).
    { rewrite <- (map_id chunk) at 2. apply map_ext_in. intros x Hx.
      apply lowerOnly_fixed. rewrite forallb_forall in Hok. apply Hok.
      rewrite Hchunk in Hx. rewrite <- (firstn_skipn (length key) (c :: t)).
      apply in_or_app. now left. }
    assert (Hkey : chunk = key) by congruence.
    exists key, target. cbn [Nat.add app].
    split; [now rewrite Hkey|]. split; [now apply UnitwiseFacts.entry_get|].
    split; [now rewrite <- Hchunk|]. split.
    + split; [destruct key; [contradiction|simpl; lia]|].
      rewrite <- Hkey at 1. rewrite Hchunk. rewrite length_firstn.
      apply Nat.le_min_r.
    + now apply matchCase_lower.
  - cbn [index nth_error]. intros [= <- <-]. left. auto.
Qed.

(** Output that starts with "г" comes from text that starts with "g". *)
Lemma first_unit (t out : jsstring) (v : N) (rest : jsstring) :
  forallb lowerOnly t = true -> runs KL ML t out ->
  out = v :: rest -> lowerUnit v = 1075%N ->
  exists t', t = 103%N :: t'.
Proof.
  intros Hok Hrun Hout Hv. destruct t as [|c t].
  - apply runs_nil in Hrun. congruence.
  - apply runs_inv in Hrun as (d & r & out' & Hbody & _ & Hr); [|discriminate].
    destruct (latin_step c t d r Hok Hbody)
      as [(_ & _ & ->)|(key & target & _ & Hin & Hkey & _ & ->)].
    + rewrite Hr in Hout. injection Hout as <- _.
      cbn [forallb] in Hok. apply andb_true_iff in Hok as [Hc _].
      rewrite (lowerOnly_fixed c Hc) in Hv. subst c. discriminate Hc.
    + pose proof (entry_checked key target Hin) as Chk.
      unfold uzbekEntryCheck in Chk. cbn [fst snd] in Chk.
      destruct target as [|u target]; [discriminate|].
      rewrite Hr in Hout. injection Hout as <- _.
      apply andb_true_iff in Chk as [Chk _].
      apply andb_true_iff in Chk as [Hu Hg].
      apply N.eqb_eq in Hu. rewrite Hu in Hv. subst u.
      cbn in Hg. apply streq_eq in Hg. rewrite Hg in Hkey.
      destruct d as [|d]; [discriminate|].
      cbn [firstn] in Hkey. injection Hkey as -> _. eauto.
Qed.

Lemma digraph_found (out : jsstring) :
  loopBody KC MC (js "нг" ++ out) 0 [] = Next 2 (js "ng").
Proof. reflexivity. Qed.

Lemma ng_is_a_key : In (js "ng") KL.
Proof.
  assert (E : existsb (streq (js "ng")) KL = true) by (vm_compute; reflexivity).
  apply existsb_exists in E as (k & Hk & E). apply streq_eq in E. now subst.
Qed.

(** The reverse loop reads a one-unit target back as its key. *)
Lemma single_found (key : jsstring) (u : N) (out t' : jsstring) (text : jsstring) :
  uzbekEntryCheck (key, [u]) = true ->
  streq [u] (js "нг") = false ->
  forKeys KL text 0 = Some (key, key) -> text = key ++ t' ->
  forallb lowerOnly t' = true -> runs KL ML t' out ->
  loopBody KC MC (u :: out) 0 [] = Next 1 key.
Proof.
  intros Chk Hnot Hfound Htext Hok Hrun.
  unfold uzbekEntryCheck in Chk. cbn [fst snd] in Chk. rewrite Hnot in Chk.
  apply andb_true_iff in Chk as [Chk Hback].
  apply andb_true_iff in Hback as [Hback Hsame].
  apply andb_true_iff in Hback as [Hback Hvalue].
  apply andb_true_iff in Hback as [Hback Hsingle].
  apply andb_true_iff in Hback as [_ Hn].
  apply andb_true_iff in Chk as [Hu _].
  apply N.eqb_eq in Hu. apply streq_eq in Hsame.
  pose proof (foundAs_true _ _ Hsingle) as F1.
  pose proof (valueIs_true _ _ Hvalue) as G.
  clear Hsingle Hvalue.
  assert (D : streq (toLowerCase (firstn 2 (u :: out))) (js "нг") = false).
  { destruct out as [|v out]; [apply UzbekFacts.digraph_one_unit|].
    change (toLowerCase (firstn 2 (u :: v :: out))) with [lowerUnit u; lowerUnit v].
    rewrite Hu. change (js "нг") with [1085%N; 1075%N]. cbn [streq].
    destruct (N.eqb_spec u 1085) as [->|Hne]; [|reflexivity].
    destruct (N.eqb_spec (lowerUnit v) 1075) as [Hv|Hv]; [|reflexivity].
    exfalso. cbn in Hn. apply streq_eq in Hn. subst key.
    destruct (first_unit t' (v :: out) v out Hok Hrun eq_refl Hv) as [t'' ->].
    pose proof (forKeys_longest KL text 0 (js "n") (js "n")
                  (getSortedKeys_longestFirst ML) Hfound (js "ng") ng_is_a_key) as L.
    assert (M : matchesAt (js "ng") text 0) by (rewrite Htext; reflexivity).
    specialize (L M). cbn in L. lia. }
  unfold loopBody. rewrite UzbekFacts.sortedCyrillicKeys_shape. cbn [forKeys].
  rewrite substring_0. change (length (js "нг")) with 2. rewrite D.
  rewrite (forKeys_single_unit singleUnitKeys u out []
             UzbekFacts.singleUnitKeys_length), F1, G, Hsame.
  reflexivity.
Qed.

Lemma runs_back (n : nat) :
  forall text, length text <= n ->
  forall out, forallb lowerOnly text = true ->
  runs KL ML text out -> runs KC MC out text.
Proof.
  induction n as [|n IH]; intros text Hlen out Hok Hrun.
  - destruct text; [|simpl in Hlen; lia].
    apply runs_nil in Hrun. subst out. now apply runs_nil.
  - destruct text as [|c t].
    + apply runs_nil in Hrun. subst out. now apply runs_nil.
    + apply runs_inv in Hrun as (d & r & out' & Hbody & Hrest & ->); [|discriminate].
      assert (Hok' : forallb lowerOnly (skipn d (c :: t)) = true).
      { rewrite forallb_forall in *. intros x Hx. apply Hok.
        rewrite <- (firstn_skipn d (c :: t)). apply in_or_app. now right. }
      destruct (latin_step c t d r Hok Hbody)
        as [(_ & -> & ->)|(key & target & Hfound & Hin & Hkey & [Hd1 Hd2] & ->)].
      * cbn [skipn] in Hrest, Hok'.
        assert (Hback : runs KC MC out' t)
          by (apply IH; trivial; cbn [length] in Hlen; lia).
        cbn [forallb] in Hok. apply andb_true_iff in Hok as [Hc _].
        destruct SeparatorFacts.separators as [_ SC].
        destruct (SC c (lowerOnly_not_cyrillic c Hc)) as [_ Hsep].
        apply (runs_step KC MC ([c] ++ out') 1 [c] t); [discriminate| |exact Hback].
        exact (SeparatorFacts.separator_step KC MC c
                 UzbekFacts.wellFormed_cyrillic Hsep out' []).
      * assert (Hback : runs KC MC out' (skipn d (c :: t))).
        { apply IH; trivial. rewrite length_skipn. cbn [length] in Hlen |- *. lia. }
        rewrite <- (firstn_skipn d (c :: t)), Hkey.
        pose proof (entry_checked key target Hin) as Chk.
        destruct (streq target (js "нг")) eqn:T.
        -- apply streq_eq in T. subst target.
           unfold uzbekEntryCheck in Chk. cbn in Chk.
           apply streq_eq in Chk. rewrite Chk.
           apply (runs_step KC MC (js "нг" ++ out') 2 (js "ng"));
             [discriminate|apply digraph_found|exact Hback].
        -- assert (S1 : exists u, target = [u]).
           { unfold uzbekEntryCheck in Chk. cbn [fst snd] in Chk.
             destruct target as [|u [|u' rest]]; [discriminate|eauto|].
             rewrite T in Chk. cbn [length Nat.eqb andb] in Chk.
             now rewrite !andb_false_r in Chk. }
           destruct S1 as [u ->].
           apply (runs_step KC MC ([u] ++ out') 1 key); [discriminate| |exact Hback].
           apply (single_found key u out' (skipn d (c :: t)) (c :: t)); trivial.
           rewrite <- Hkey. symmetry. apply firstn_skipn.
Qed.

End UzbekRoundTrip.


